(** * Linsk: the VM bootstrap channel and the QEMU argument model

    A shallow embedding of [vm/ssh.go] (host-key table, the two serial
    exchanges, the SSH command runner) and of the [qemucli] key/value and
    flag arguments, with the properties the specification states about
    them.

    Conventions.  A Go [string] is a [string]; a Go [[]byte] is a
    [list ascii] (one [ascii] per byte); [string(b)] and [[]byte(s)] are
    [string_of_list_ascii] and [list_ascii_of_string].  A Go [error] is a
    value of the inductive [error], and a nil error is [None]. *)

From Stdlib Require Import ZArith NArith Ascii String List Lia DecimalString.
From stdpp Require Import base option list gmap strings.

Open Scope string_scope.
Open Scope list_scope.

(** ** Errors *)

Inductive error : Type :=
| Errorf (msg : string)                  (* fmt.Errorf, message already formatted *)
| Wrap (cause : error) (msg : string)    (* errors.Wrap / errors.Wrapf *)
| CorruptInputError (off : nat)          (* encoding/base64 *)
| Canceled                               (* context.Canceled *)
| DeadlineExceeded                       (* context.DeadlineExceeded *)
| Transport (msg : string).              (* an error of the ssh transport *)

(** [%v] of an [int]. *)
Definition fmt_int (n : nat) : string := NilEmpty.string_of_uint (Nat.to_uint n).

(** The [Error()] method. *)
Fixpoint Error (e : error) : string :=
  match e with
  | Errorf msg => msg
  | Wrap cause msg => msg +:+ ": " +:+ Error cause
  | CorruptInputError off => "illegal base64 data at input byte " +:+ fmt_int off
  | Canceled => "context canceled"
  | DeadlineExceeded => "context deadline exceeded"
  | Transport msg => msg
  end.

(** ** The pieces of Go's standard library that [ssh.go] calls *)

Module strings.

(** [strings.Split(s, sep)] for a one-byte separator, which is how the
    source calls it: the pieces between the separators, in order; a string
    without separator is its own single piece, the empty string included. *)
Fixpoint Split (s : string) (sep : ascii) : list string :=
  match s with
  | EmptyString => [EmptyString]
  | String c s' =>
      if Ascii.eqb c sep then EmptyString :: Split s' sep
      else match Split s' sep with
           | piece :: pieces => String c piece :: pieces
           | [] => [String c EmptyString]
           end
  end.

End strings.

Module bytes.

(** [bytes.HasPrefix]. *)
Fixpoint HasPrefix (s prefix : list ascii) : bool :=
  match prefix, s with
  | [], _ => true
  | _ :: _, [] => false
  | p :: prefix', c :: s' => Ascii.eqb c p && HasPrefix s' prefix'
  end.

(** [bytes.Equal]: same length and same bytes; a nil slice equals an
    empty one. *)
Definition Equal (a b : list ascii) : bool := bool_decide (a = b).

End bytes.

Module base64.

Definition encodeStd : string :=
  "ABCDEFGHIJKLMNOPQRSTUVWXYZabcdefghijklmnopqrstuvwxyz0123456789+/".

Fixpoint indexByte (s : string) (c : ascii) (i : N) : option N :=
  match s with
  | EmptyString => None
  | String c' s' => if Ascii.eqb c' c then Some i else indexByte s' c (N.succ i)
  end.

(** [enc.decodeMap]: the position in the alphabet, [0xff] for a byte
    outside it. *)
Definition decodeMap (c : ascii) : N :=
  match indexByte encodeStd c 0 with
  | Some i => i
  | None => 255%N
  end.

Definition padChar : ascii := "="%char.

Definition isNewline (c : ascii) : bool :=
  Ascii.eqb c "010"%char || Ascii.eqb c "013"%char.

(** [byte(v)]: the low eight bits. *)
Definition to_byte (v : N) : ascii := ascii_of_N (N.land v 255).

(** The end of [decodeQuantum]: four 6-bit values (missing ones are 0)
    become [dlen - 1] bytes. *)
Definition convert (dbuf : list N) (dlen : nat) : list ascii :=
  let d i := nth i dbuf 0%N in
  let val := N.lor (N.lor (N.lor (N.shiftl (d 0) 18) (N.shiftl (d 1) 12))
                          (N.shiftl (d 2) 6)) (d 3) in
  let b0 := to_byte (N.shiftr val 16) in
  let b1 := to_byte (N.shiftr val 8) in
  let b2 := to_byte val in
  match dlen with
  | 4 => [b0; b1; b2]
  | 3 => [b0; b1]
  | 2 => [b0]
  | _ => []
  end.

(** [for si < len(src) && (src[si] == '\n' || src[si] == '\r') { si++ }] *)
Fixpoint skipNewlines (src : list ascii) (si : nat) : list ascii * nat :=
  match src with
  | c :: src' => if isNewline c then skipNewlines src' (S si) else (src, si)
  | [] => ([], si)
  end.

(** After the padding of a quantum: newlines are skipped, anything else
    is trailing garbage; the quantum's bytes are written either way. *)
Definition finishPadded (src : list ascii) (si : nat) (dbuf : list N) (dlen : nat)
  : list ascii * option error :=
  match skipNewlines src si with
  | ([], _) => (convert dbuf dlen, None)
  | (_ :: _, si') => (convert dbuf dlen, Some (CorruptInputError si'))
  end.

(** [Encoding.Decode] for [StdEncoding] (padded, not strict): the loop
    over [decodeQuantum].  [src] is what is left of the input, [si] the
    offset of its first byte, [j] and [dbuf] the values read so far for
    the quantum under way.  The result is the bytes written and the
    error. *)
Fixpoint decodeFrom (src : list ascii) (si j : nat) (dbuf : list N)
  : list ascii * option error :=
  match src with
  | [] =>
      match j with
      | 0 => ([], None)
      | _ => ([], Some (CorruptInputError (si - j)))
      end
  | c :: src' =>
      let si := S si in
      let out := decodeMap c in
      if negb (N.eqb out 255) then
        match j with
        | 3 =>
            let '(rest, err) := decodeFrom src' si 0 [] in
            (convert (dbuf ++ [out]) 4 ++ rest, err)
        | _ => decodeFrom src' si (S j) (dbuf ++ [out])
        end
      else if isNewline c then decodeFrom src' si j dbuf
      else if negb (Ascii.eqb c padChar) then ([], Some (CorruptInputError (si - 1)))
      else
        match j with
        | 0 | 1 => ([], Some (CorruptInputError (si - 1)))
        | 2 =>
            match skipNewlines src' si with
            | ([], si2) => ([], Some (CorruptInputError si2))
            | (c2 :: src2, si2) =>
                if negb (Ascii.eqb c2 padChar)
                then ([], Some (CorruptInputError (si2 - 1)))
                else finishPadded src2 (S si2) dbuf 2
            end
        | _ => finishPadded src' si dbuf j
        end
  end.

(** [StdEncoding.DecodeString]. *)
Definition DecodeString (s : string) : list ascii * option error :=
  decodeFrom (list_ascii_of_string s) 0 0 [].

End base64.

(** ** [ParseSSHKeyScan] *)

(** What the callback uses of an [ssh.PublicKey] and of a [net.Addr]. *)
Record PublicKey := { KeyType : string; Marshal : list ascii }.
Record Addr := { Network : string; AddrString : string }.

(** [ssh.HostKeyCallback]. *)
Definition HostKeyCallback : Type := string -> Addr -> PublicKey -> option error.

(** The loop of [ParseSSHKeyScan] over the lines.  The test of
    [len(lineSplit)] against 3 is the match on a list of three fields, which
    also names [lineSplit[1]] and [lineSplit[2]]. *)
Fixpoint scanLines (lines : list string) (knownKeysMap : gmap string (list ascii))
  : error + gmap string (list ascii) :=
  match lines with
  | [] => inr knownKeysMap
  | line :: lines' =>
      if Nat.eqb (String.length line) 0 then scanLines lines' knownKeysMap
      else
        let lineSplit := strings.Split line " " in
        match lineSplit with
        | [_; keyType; key64] =>
            match base64.DecodeString key64 with
            | (_, Some err) => inl (Wrap err "decode base64 public key")
            | (b, None) => scanLines lines' (<[keyType := b]> knownKeysMap)
            end
        | _ =>
            inl (Errorf ("bad split ssh identity string length: want "
                         +:+ fmt_int 3 +:+ ", have " +:+ fmt_int (length lineSplit)
                         +:+ " ('" +:+ line +:+ "')"))
        end
  end.

(** The closure that [ParseSSHKeyScan] returns, over the table it built. *)
Definition hostKeyCallback (knownKeysMap : gmap string (list ascii)) : HostKeyCallback :=
  fun hostname remote key =>
    match knownKeysMap !! KeyType key with
    | None => Some (Errorf ("unknown key type '" +:+ KeyType key +:+ "'"))
    | Some knownKey =>
        if negb (bytes.Equal (Marshal key) knownKey)
        then Some (Errorf "public key mismatch")
        else None
    end.

Definition ParseSSHKeyScan (knownHosts : list ascii) : error + HostKeyCallback :=
  match scanLines (strings.Split (string_of_list_ascii knownHosts) "010") ∅ with
  | inl err => inl err
  | inr knownKeysMap => inr (hostKeyCallback knownKeysMap)
  end.

(** ** The serial exchanges *)

(** How a call ends.  [Waits] is a [select] with no case ready: the call has
    not returned yet. *)
Inductive outcome (A : Type) : Type :=
| Returns (a : A)         (* return a, nil *)
| Fails (err : error)     (* return nil, err *)
| Panics                  (* run-time panic: index out of range *)
| Waits.
Arguments Returns {A} a.
Arguments Fails {A} err.
Arguments Panics {A}.
Arguments Waits {A}.

(** The case that one [select] of a read loop takes. *)
Inductive selected : Type :=
| CtxDone (err : error)            (* <-vi.ctx.Done(); err is what vi.ctx.Err() returns *)
| DeadlinePassed                   (* <-time.After(time.Until(deadline)),
                                      deadline := time.Now().Add(5 * time.Second) *)
| SerialData (data : list ascii).  (* data := <-vi.serialStdoutCh *)

(** What the two exchanges use of an [Instance]: writing to the serial
    device, and the cases the selects of the read loop take, in order, once
    the command is written.  [resetSerialStdout] happens before the write
    and so leaves no trace in [serial]. *)
Record Instance := {
  writeSerial : list ascii -> option error;
  serial : list selected
}.

Definition dquote : string := String "034"%char "".
Definition newline : string := String "010"%char "".

Definition statusPrefix : list ascii := list_ascii_of_string "SERIAL STATUS: ".

(** [string(b)] for a byte [b]: the UTF-8 encoding of the code point. *)
Definition string_of_rune (b : ascii) : string :=
  let n := N_of_ascii b in
  if (n <? 128)%N then String b ""
  else String (ascii_of_N (N.lor 192 (N.shiftr n 6)))
         (String (ascii_of_N (N.lor 128 (N.land n 63))) "").

(** The read loop of [scanSSHIdentity]; [ret] is the buffer. *)
Fixpoint scanSSHIdentity_loop (cases : list selected) (ret : list ascii)
  : outcome (list ascii) :=
  match cases with
  | [] => Waits
  | CtxDone err :: _ => Fails err
  | DeadlinePassed :: _ => Fails (Errorf "keyscan command timed out")
  | SerialData data :: cases' =>
      if Nat.eqb (length data) 0 then scanSSHIdentity_loop cases' ret
      else
        let prefix := statusPrefix in
        if bytes.HasPrefix data prefix then
          if Nat.eqb (length data) (length prefix)
          then Fails (Errorf "keyscan command status code did not show up")
          else
            match data !! length prefix with
            | None => Panics
            | Some c =>
                if negb (Ascii.eqb c "0")
                then Fails (Errorf ("non-zero keyscan command status code: '"
                                    +:+ string_of_rune c +:+ "'"))
                else Returns ret
            end
        else
          match data !! 0 with
          | None => Panics
          | Some c =>
              if Ascii.eqb c "|"
              then scanSSHIdentity_loop cases' (ret ++ data)
              else scanSSHIdentity_loop cases' ret
          end
  end.

Definition keyscanCmd : string :=
  "ssh-keyscan -H localhost; echo " +:+ dquote +:+ "SERIAL STATUS: $?" +:+ dquote
  +:+ "; rm /root/.ash_history" +:+ newline.

Definition scanSSHIdentity (vi : Instance) : outcome (list ascii) :=
  match writeSerial vi (list_ascii_of_string keyscanCmd) with
  | Some err => Fails (Wrap err "write keyscan command to serial")
  | None => scanSSHIdentity_loop (serial vi) []
  end.

Section Bootstrap.

(** [ssh.Signer] and [*rsa.PrivateKey], and the calls into the crypto
    and shell-escape packages. *)
Variables Signer PrivateKey : Type.
Variable rsa_GenerateKey : nat -> error + PrivateKey.
Variable ssh_NewSignerFromKey : PrivateKey -> error + Signer.
Variable ssh_MarshalAuthorizedKey : Signer -> list ascii.
Variable shellescape_Quote : string -> string.

(** Helpers of the [vm] package that live outside [ssh.go]. *)
Variable getLogErrMsg : string -> string.
Variable wrapErrWithLog : error -> string -> string -> error.

Definition generateSSHKey : error + (Signer * list ascii) :=
  match rsa_GenerateKey 4096 with
  | inl err => inl (Wrap err "generate rsa private key")
  | inr privateKey =>
      match ssh_NewSignerFromKey privateKey with
      | inl err => inl (Wrap err "create signer from key")
      | inr signer => inr (signer, ssh_MarshalAuthorizedKey signer)
      end
  end.

(** The read loop of [sshSetup]; [stdOutErrBuf] is the log. *)
Fixpoint sshSetup_loop (sshSigner : Signer) (cases : list selected)
    (stdOutErrBuf : list ascii) : outcome Signer :=
  match cases with
  | [] => Waits
  | CtxDone err :: _ => Fails err
  | DeadlinePassed :: _ =>
      Fails (Errorf ("setup command timed out "
                     +:+ getLogErrMsg (string_of_list_ascii stdOutErrBuf)))
  | SerialData data :: cases' =>
      let prefix := statusPrefix in
      let stdOutErrBuf := stdOutErrBuf ++ data in
      if bytes.HasPrefix data prefix then
        if Nat.eqb (length data) (length prefix)
        then Fails (Errorf "setup command status code did not show up")
        else
          match data !! length prefix with
          | None => Panics
          | Some c =>
              if negb (Ascii.eqb c "0")
              then Fails (Errorf ("non-zero setup command status code: '"
                                  +:+ string_of_rune c +:+ "' "
                                  +:+ getLogErrMsg (string_of_list_ascii stdOutErrBuf)))
              else Returns sshSigner
          end
      else sshSetup_loop sshSigner cases' stdOutErrBuf
  end.

Definition setupCmd (sshPublicKey : list ascii) : string :=
  "set -ex; do_setup () { sh -c " +:+ dquote
  +:+ "set -ex; ifconfig eth0 up; ifconfig lo up; udhcpc; mkdir -p ~/.ssh; echo "
  +:+ shellescape_Quote (string_of_list_ascii sshPublicKey)
  +:+ " > ~/.ssh/authorized_keys; rc-update add sshd; service sshd start" +:+ dquote
  +:+ "; echo " +:+ dquote +:+ "SERIAL STATUS: $?" +:+ dquote +:+ "; }; do_setup"
  +:+ newline.

Definition sshSetup (vi : Instance) : outcome Signer :=
  match generateSSHKey with
  | inl err => Fails (Wrap err "generate ssh key")
  | inr (sshSigner, sshPublicKey) =>
      match writeSerial vi (list_ascii_of_string (setupCmd sshPublicKey)) with
      | Some err => Fails (Wrap err "write ssh setup serial command")
      | None => sshSetup_loop sshSigner (serial vi) []
      end
  end.

(** *** [runSSHCmd] *)

(** A session runs a command: what it wrote to [Stdout] and to [Stderr],
    and the error of [Run].  A client opens a session or fails to. *)
Record RunResult := { ranStdout : list ascii; ranStderr : list ascii; ranErr : option error }.
Record Session := { Run : string -> RunResult }.
Record Client := { NewSession : error + Session }.

(** The second component tells whether the deferred [sess.Close()] ran. *)
Definition runSSHCmd (c : Client) (cmd : string) : (error + list ascii) * bool :=
  match NewSession c with
  | inl err => (inl (Wrap err "create new vm ssh session"), false)
  | inr sess =>
      let r := Run sess cmd in
      let stdout := ranStdout r in
      let stderr := ranStderr r in
      match ranErr r with
      | Some err => (inl (wrapErrWithLog err "run cmd" (string_of_list_ascii stderr)), true)
      | None => (inr stdout, true)
      end
  end.

End Bootstrap.

(** ** The [qemucli] arguments *)

Module qemucli.

(** Modelled from the spec: [ArgAcceptedValue] is declared in another file
    of the package; the specification gives the two kinds that the
    arguments here answer with, none and key/value. *)
Inductive ArgAcceptedValue := ArgAcceptedValueNone | ArgAcceptedValueKeyValue.

Record KeyValueArgItem := { Key : string; Value : string }.

(** The zero value that [make] fills a new array with. *)
Definition zeroItem : KeyValueArgItem := {| Key := ""; Value := "" |}.

(** Slices share backing arrays: the store maps an array's address to its
    content, and a slice is a window on an array. *)
Abbreviation loc := positive.
Abbreviation store := (gmap loc (list KeyValueArgItem)).
Record Slice := { arr : loc; off : nat; len : nat }.

(** [s[i]]; [None] is the index-out-of-range panic. *)
Definition index (s : Slice) (i : nat) (h : store) : option KeyValueArgItem :=
  if decide (i < len s) then
    match h !! arr s with
    | Some a => a !! (off s + i)
    | None => None
    end
  else None.

(** [s[i] = v] *)
Definition assign (s : Slice) (i : nat) (v : KeyValueArgItem) (h : store) : option store :=
  if decide (i < len s) then
    match h !! arr s with
    | Some a =>
        if decide (off s + i < length a)
        then Some (<[arr s := <[off s + i := v]> a]> h)
        else None
    | None => None
    end
  else None.

(** [make([]KeyValueArgItem, n)]: a new array at an address not in use. *)
Definition make (n : nat) (h : store) : Slice * store :=
  let l := fresh (dom h) in
  ({| arr := l; off := 0; len := n |}, <[l := replicate n zeroItem]> h).

Record FlagArg := { flagKey : string }.
Record KeyValueArg := { key : string; items : Slice }.

Section Validation.

(** The two validation functions, declared in another file of the
    package. *)
Variable validateArgKey : string -> ArgAcceptedValue -> option error.
Variable validateArgStrValue : string -> option error.

Definition FlagArg_ValueType (a : FlagArg) : ArgAcceptedValue := ArgAcceptedValueNone.
Definition FlagArg_StringKey (a : FlagArg) : string := flagKey a.
Definition FlagArg_StringValue (a : FlagArg) : string := "".

Definition NewFlagArg (key : string) : error + FlagArg :=
  let a := {| flagKey := key |} in
  match validateArgKey (flagKey a) (FlagArg_ValueType a) with
  | Some err => inl (Wrap err "validate arg key")
  | None => inr a
  end.

Definition ValueType (a : KeyValueArg) : ArgAcceptedValue := ArgAcceptedValueKeyValue.
Definition StringKey (a : KeyValueArg) : string := key a.

(** The [range] loop of [NewKeyValueArg]: [idx] are the indices still to
    visit.  [None] is a panic. *)
Fixpoint copyItems (a : KeyValueArg) (items : Slice) (idx : list nat) (h : store)
  : option (option error * store) :=
  match idx with
  | [] => Some (None, h)
  | i :: idx' =>
      match index items i h with
      | None => None
      | Some item =>
          if Nat.eqb (String.length (Key item)) 0
          then Some (Some (Errorf "empty key not allowed"), h)
          else if Nat.eqb (String.length (Value item)) 0
          then Some (Some (Errorf ("empty value for key '" +:+ Key item
                                   +:+ "' is not allowed")), h)
          else
            match validateArgStrValue (Key item) with
            | Some err =>
                Some (Some (Wrap err ("validate key '" +:+ Key item +:+ "'")), h)
            | None =>
                match validateArgStrValue (Value item) with
                | Some err =>
                    Some (Some (Wrap err ("validate map value '" +:+ Value item +:+ "'")),
                          h)
                | None =>
                    match assign (qemucli.items a) i item h with
                    | None => None
                    | Some h' => copyItems a items idx' h'
                    end
                end
            end
      end
  end.

Definition NewKeyValueArg (key : string) (items : Slice) (h : store)
  : outcome KeyValueArg * store :=
  let '(own, h) := make (len items) h in
  let a := {| key := key; items := own |} in
  match validateArgKey key (ValueType a) with
  | Some err => (Fails (Wrap err "validate arg key"), h)
  | None =>
      match copyItems a items (seq 0 (len items)) h with
      | None => (Panics, h)
      | Some (Some err, h) => (Fails err, h)
      | Some (None, h) => (Returns a, h)
      end
  end.

(** The loop of [StringValue] over the items read from [a.items];
    [i] is the index, [sb] the builder. *)
Fixpoint writeItems (its : list KeyValueArgItem) (i : nat) (sb : string) : string :=
  match its with
  | [] => sb
  | item :: its' =>
      if String.eqb (Key item) "" then writeItems its' (S i) sb
      else
        let sb := if negb (Nat.eqb i 0) then sb +:+ "," else sb in
        let sb := sb +:+ Key item in
        let sb :=
          if Nat.ltb 0 (String.length (Value item))
          then sb +:+ ("=" +:+ Value item) else sb in
        writeItems its' (S i) sb
  end.

(** The elements of a slice, [s[0]] to [s[len(s)-1]]. *)
Definition elems (s : Slice) (h : store) : list KeyValueArgItem :=
  match h !! arr s with
  | Some a => take (len s) (drop (off s) a)
  | None => []
  end.

(** [StringValue] only reads: the items are those of [a.items] in the
    store, and the store is left as it is. *)
Definition StringValue (a : KeyValueArg) (h : store) : string * store :=
  (writeItems (elems (items a) h) 0 "", h).

End Validation.

End qemucli.

(** ** The rendered form, in the specification's words *)

(** An item is [key=value], or [key] alone when its value is empty. *)
Definition spec_item (it : qemucli.KeyValueArgItem) : string :=
  if String.eqb (qemucli.Value it) "" then qemucli.Key it
  else qemucli.Key it +:+ "=" +:+ qemucli.Value it.

(** The strings joined with a separator between neighbours. *)
Fixpoint spec_join (sep : string) (l : list string) : string :=
  match l with
  | [] => ""
  | [x] => x
  | x :: l' => x +:+ sep +:+ spec_join sep l'
  end.

(** ** The chunks of the serial console, in the specification's words *)

(** A chunk is a key-scan line when its first byte is the delimiter. *)
Definition delimited (chunk : list ascii) : Prop := chunk !! 0 = Some "|"%char.

#[global] Instance delimited_dec (chunk : list ascii) : Decision (delimited chunk).
Proof. unfold delimited. apply _. Defined.

(** A chunk is a sentinel when it starts with [SERIAL STATUS: ]. *)
Definition sentinel (chunk : list ascii) : Prop :=
  bytes.HasPrefix chunk statusPrefix = true.

(** ** Slices and items, in the specification's words *)

(** A slice a caller can hold: empty, or a window that lies within an
    allocated array. *)
Definition valid_slice (s : qemucli.Slice) (h : qemucli.store) : Prop :=
  qemucli.len s = 0 \/
  exists a, h !! qemucli.arr s = Some a /\
            qemucli.off s + qemucli.len s <= length a.

(** The argument that [NewKeyValueArg] builds for [key] and [s] in [h]: its
    items are a slice of their own, on the array that [make] allocates. *)
Definition built (key : string) (s : qemucli.Slice) (h : qemucli.store)
  : qemucli.KeyValueArg :=
  {| qemucli.key := key;
     qemucli.items := {| qemucli.arr := fresh (dom h); qemucli.off := 0;
                         qemucli.len := qemucli.len s |} |}.

(** What a caller can do to its slice afterwards: a sequence of
    [items[i] = v]. *)
Fixpoint assigns (s : qemucli.Slice) (ws : list (nat * qemucli.KeyValueArgItem))
    (h : qemucli.store) : option qemucli.store :=
  match ws with
  | [] => Some h
  | (i, v) :: ws' =>
      match qemucli.assign s i v h with
      | Some h' => assigns s ws' h'
      | None => None
      end
  end.

Section ItemPolicy.

Variable validateArgStrValue : string -> option error.

(** An item with an empty key, an empty value, or a key or a value that
    the character policy refuses. *)
Definition rejected (it : qemucli.KeyValueArgItem) : Prop :=
  qemucli.Key it = "" \/ qemucli.Value it = "" \/
  validateArgStrValue (qemucli.Key it) <> None \/
  validateArgStrValue (qemucli.Value it) <> None.

Definition accepted (it : qemucli.KeyValueArgItem) : Prop :=
  qemucli.Key it <> "" /\ qemucli.Value it <> "" /\
  validateArgStrValue (qemucli.Key it) = None /\
  validateArgStrValue (qemucli.Value it) = None.

End ItemPolicy.

(** ** The lines of a key scan, one at a time *)

(** A line that the loop of [ParseSSHKeyScan] takes as a record: three
    fields between spaces, the third one decodable. *)
Definition well_formed_record (line : string) : Prop :=
  exists host keyType key64,
    strings.Split line " " = [host; keyType; key64] /\
    snd (base64.DecodeString key64) = None.

(** The error with which the loop of [ParseSSHKeyScan] stops at a line, if
    it does. *)
Definition record_error (line : string) : option error :=
  if Nat.eqb (String.length line) 0 then None
  else
    match strings.Split line " " with
    | [_; _; key64] =>
        match snd (base64.DecodeString key64) with
        | Some err => Some (Wrap err "decode base64 public key")
        | None => None
        end
    | fields =>
        Some (Errorf ("bad split ssh identity string length: want "
                      +:+ fmt_int 3 +:+ ", have " +:+ fmt_int (length fields)
                      +:+ " ('" +:+ line +:+ "')"))
    end.

(** ** The items of an argument, one at a time *)

Section ItemErrors.

Variable validateArgStrValue : string -> option error.

(** The error with which the loop of [NewKeyValueArg] stops at an item, if
    it does: the four checks, in the order of the code. *)
Definition item_error (it : qemucli.KeyValueArgItem) : option error :=
  if Nat.eqb (String.length (qemucli.Key it)) 0
  then Some (Errorf "empty key not allowed")
  else if Nat.eqb (String.length (qemucli.Value it)) 0
  then Some (Errorf ("empty value for key '" +:+ qemucli.Key it +:+ "' is not allowed"))
  else
    match validateArgStrValue (qemucli.Key it) with
    | Some err => Some (Wrap err ("validate key '" +:+ qemucli.Key it +:+ "'"))
    | None =>
        match validateArgStrValue (qemucli.Value it) with
        | Some err =>
            Some (Wrap err ("validate map value '" +:+ qemucli.Value it +:+ "'"))
        | None => None
        end
    end.

End ItemErrors.

(** An item with a key to render. *)
Definition nonblank (it : qemucli.KeyValueArgItem) : Prop := qemucli.Key it <> "".

#[global] Instance nonblank_dec (it : qemucli.KeyValueArgItem) : Decision (nonblank it).
Proof. unfold nonblank. apply _. Defined.

(** A string without newline: splitting it into lines gives the string
    itself.  And the chunk that carries a line and its newline. *)
Definition one_line (line : string) : Prop := strings.Split line "010" = [line].

Definition line_chunk (line : string) : list ascii :=
  list_ascii_of_string line ++ ["010"%char].

(** ** Sample inputs *)

(** A console that echoes the key-scan command, prints two key-scan lines
    with an empty chunk between them, and then the status [0]. *)
Definition sample_chunks : list (list ascii) :=
  [ list_ascii_of_string "ssh-keyscan -H localhost";
    list_ascii_of_string "|1|aaa= ssh-rsa QUJD";
    [];
    list_ascii_of_string "|1|bbb= ssh-ed25519 QUJE" ].

Definition sample_instance : Instance :=
  {| writeSerial := fun _ => None;
     serial := map SerialData sample_chunks
               ++ [SerialData (list_ascii_of_string "SERIAL STATUS: 0")] |}.

(** A remote end where [true] succeeds and anything else writes to the
    standard error and exits with status 2; and a way to wrap an error with
    a log that keeps the cause and puts the text in the message. *)
Definition sample_session : Session :=
  {| Run := fun cmd =>
       if String.eqb cmd "true"
       then {| ranStdout := []; ranStderr := []; ranErr := None |}
       else {| ranStdout := [];
               ranStderr := list_ascii_of_string "ls: /mnt: No such file";
               ranErr := Some (Transport "Process exited with status 2") |} |}.

Definition sample_client : Client := {| NewSession := inr sample_session |}.

Definition sample_wrap (err : error) (msg log : string) : error :=
  Wrap err (msg +:+ " (log: '" +:+ log +:+ "')").

(** A policy that accepts every key and refuses the strings with a comma;
    a store with the caller's array at address 1, and two slices on it: the
    two items of a drive, and those two with a third whose value is
    empty. *)
Definition sample_key_policy (k : string) (t : qemucli.ArgAcceptedValue) : option error :=
  None.

Definition sample_policy (v : string) : option error :=
  match String.index 0 "," v with
  | Some _ => Some (Errorf "commas are not allowed")
  | None => None
  end.

Definition sample_store : qemucli.store :=
  {[ 1%positive := [ {| qemucli.Key := "file"; qemucli.Value := "disk.img" |};
                     {| qemucli.Key := "format"; qemucli.Value := "qcow2" |};
                     {| qemucli.Key := "readonly"; qemucli.Value := "" |} ] ]}.

Definition sample_items : qemucli.Slice :=
  {| qemucli.arr := 1%positive; qemucli.off := 0; qemucli.len := 2 |}.

Definition sample_items3 : qemucli.Slice :=
  {| qemucli.arr := 1%positive; qemucli.off := 0; qemucli.len := 3 |}.

(** An instance whose serial device takes every write, with the given cases
    for the selects; and stand-ins for the crypto, shell-escape and log
    helpers: keys and signers are numbers, the public key of a signer is a
    fixed line, quoting puts single quotes around, and the log message puts
    the log between [(log: '] and [')]. *)
Definition sample_instance_with (cases : list selected) : Instance :=
  {| writeSerial := fun _ => None; serial := cases |}.

Definition sample_generate (bits : nat) : error + nat := inr bits.
Definition sample_signer (privateKey : nat) : error + nat := inr privateKey.
Definition sample_marshal (signer : nat) : list ascii :=
  list_ascii_of_string ("ssh-rsa QUJD" +:+ newline).
Definition sample_quote (s : string) : string := "'" +:+ s +:+ "'".
Definition sample_log_msg (log : string) : string := "(log: '" +:+ log +:+ "')".

(** An empty slice that points nowhere, and two arguments over arrays with
    a blank key, as no constructor builds them: the blank key second, and
    the blank key first. *)
Definition sample_no_items : qemucli.Slice :=
  {| qemucli.arr := 7%positive; qemucli.off := 0; qemucli.len := 0 |}.

Definition sample_blank_store : qemucli.store :=
  {[ 2%positive := [ {| qemucli.Key := "file"; qemucli.Value := "disk.img" |};
                     {| qemucli.Key := ""; qemucli.Value := "x" |};
                     {| qemucli.Key := "snapshot"; qemucli.Value := "" |} ] ]}.

Definition sample_blank_second : qemucli.KeyValueArg :=
  {| qemucli.key := "drive";
     qemucli.items := {| qemucli.arr := 2%positive; qemucli.off := 0; qemucli.len := 3 |} |}.

Definition sample_blank_first : qemucli.KeyValueArg :=
  {| qemucli.key := "drive";
     qemucli.items := {| qemucli.arr := 2%positive; qemucli.off := 1; qemucli.len := 2 |} |}.

(** The two key-scan lines of the sample console, each with its newline,
    between an echo of the command and a prompt. *)
Definition sample_scan_lines : list string :=
  [ "|1|aaa= ssh-rsa QUJD"; "|1|bbb= ssh-ed25519 QUJE" ].

Definition sample_scan_chunks : list (list ascii) :=
  [ list_ascii_of_string "ssh-keyscan -H localhost";
    line_chunk "|1|aaa= ssh-rsa QUJD";
    line_chunk "|1|bbb= ssh-ed25519 QUJE";
    list_ascii_of_string "localhost:~# " ].

(** * Properties *)

(** ** The host-key table *)

Lemma length_0_empty (s : string) : Nat.eqb (String.length s) 0 = true <-> s = "".
Proof.
  destruct s; simpl; split; intro H; try reflexivity; discriminate.
Qed.

Lemma scanLines_app (l1 l2 : list string) (m : gmap string (list ascii)) :
  scanLines (l1 ++ l2) m =
  match scanLines l1 m with
  | inl err => inl err
  | inr m1 => scanLines l2 m1
  end.
Proof.
  revert m. induction l1 as [|line l1 IH]; intros m; simpl; [reflexivity|].
  destruct (Nat.eqb (String.length line) 0); [apply IH|].
  destruct (strings.Split line " ") as [|f0 [|f1 [|f2 [|f3 fs]]]]; try reflexivity.
  destruct (base64.DecodeString f2) as [b [err|]]; [reflexivity|apply IH].
Qed.

(** One step of the loop on a record that is accepted. *)
Lemma scanLines_record (line host keyType key64 : string) (b : list ascii)
    (lines : list string) (m : gmap string (list ascii)) :
  strings.Split line " " = [host; keyType; key64] ->
  base64.DecodeString key64 = (b, None) ->
  scanLines (line :: lines) m = scanLines lines (<[keyType := b]> m).
Proof.
  intros Hsplit Hdec. simpl.
  destruct (Nat.eqb (String.length line) 0) eqn:Hlen.
  - apply length_0_empty in Hlen. subst line. discriminate Hsplit.
  - rewrite Hsplit, Hdec. reflexivity.
Qed.

(** Every entry of the table that the loop returns was there before or comes
    from a record among the lines. *)
Lemma scanLines_lookup_inv (lines : list string) (m m' : gmap string (list ascii))
    (t : string) (b : list ascii) :
  scanLines lines m = inr m' -> m' !! t = Some b ->
  m !! t = Some b \/
  exists line host key64,
    line ∈ lines /\ strings.Split line " " = [host; t; key64] /\
    base64.DecodeString key64 = (b, None).
Proof.
  revert m. induction lines as [|line lines IH]; intros m Hscan Hget; simpl in Hscan.
  - injection Hscan as <-. left. exact Hget.
  - destruct (Nat.eqb (String.length line) 0).
    + destruct (IH _ Hscan Hget) as [H|(l & h & k & Hin & H)]; [left; exact H|].
      right. exists l, h, k. split; [apply elem_of_cons; right; exact Hin|exact H].
    + destruct (strings.Split line " ") as [|f0 [|f1 [|f2 [|f3 fs]]]] eqn:Hsplit;
        try discriminate Hscan.
      destruct (base64.DecodeString f2) as [b' [err|]] eqn:Hdec; [discriminate Hscan|].
      destruct (IH _ Hscan Hget) as [H|(l & h & k & Hin & H)].
      * destruct (decide (f1 = t)) as [->|Hne].
        -- rewrite lookup_insert_eq in H. injection H as ->.
           right. exists line, f0, f2. split; [apply elem_of_cons; left; reflexivity|].
           split; [exact Hsplit|exact Hdec].
        -- rewrite lookup_insert_ne in H by exact Hne. left. exact H.
      * right. exists l, h, k. split; [apply elem_of_cons; right; exact Hin|exact H].
Qed.

(** Lines that are no record of type [t] leave the entry of [t] alone. *)
Lemma scanLines_other_types (lines : list string) (m m' : gmap string (list ascii))
    (t : string) :
  (forall line host key64, line ∈ lines -> strings.Split line " " <> [host; t; key64]) ->
  scanLines lines m = inr m' -> m' !! t = m !! t.
Proof.
  revert m. induction lines as [|line lines IH]; intros m Hno Hscan; simpl in Hscan.
  - injection Hscan as <-. reflexivity.
  - assert (Hno' : forall line host key64,
               line ∈ lines -> strings.Split line " " <> [host; t; key64]).
    { intros l h k Hin. apply Hno. apply elem_of_cons. right. exact Hin. }
    destruct (Nat.eqb (String.length line) 0); [apply (IH _ Hno' Hscan)|].
    destruct (strings.Split line " ") as [|f0 [|f1 [|f2 [|f3 fs]]]] eqn:Hsplit;
      try discriminate Hscan.
    destruct (base64.DecodeString f2) as [b' [err|]]; [discriminate Hscan|].
    rewrite (IH _ Hno' Hscan). apply lookup_insert_ne.
    intros ->. apply (Hno line f0 f2); [apply elem_of_cons; left; reflexivity|exact Hsplit].
Qed.

(** A line that is not empty and is no well-formed record makes the loop
    fail, wherever it stands. *)
Lemma scanLines_malformed (lines : list string) (m : gmap string (list ascii))
    (line : string) :
  line ∈ lines -> line <> "" ->
  (length (strings.Split line " ") <> 3 \/
   exists host keyType key64,
     strings.Split line " " = [host; keyType; key64] /\
     snd (base64.DecodeString key64) <> None) ->
  exists err, scanLines lines m = inl err.
Proof.
  intros Hin Hne Hbad. revert m.
  induction lines as [|l lines IH]; intros m; [inversion Hin|].
  apply elem_of_cons in Hin. simpl.
  destruct (Nat.eqb (String.length l) 0) eqn:Hlen.
  - destruct Hin as [->|Hin]; [apply length_0_empty in Hlen; contradiction|].
    apply IH. exact Hin.
  - destruct (strings.Split l " ") as [|f0 [|f1 [|f2 [|f3 fs]]]] eqn:Hsplit; eauto.
    destruct (base64.DecodeString f2) as [b [err|]] eqn:Hdec; [eauto|].
    destruct Hin as [->|Hin]; [|apply IH; exact Hin].
    exfalso. destruct Hbad as [Hlen3|(h & t & k & Heq & Herr)].
    + rewrite Hsplit in Hlen3. apply Hlen3. reflexivity.
    + rewrite Hsplit in Heq. injection Heq as -> -> ->.
      rewrite Hdec in Herr. apply Herr. reflexivity.
Qed.

Lemma Split_not_nil (s : string) (sep : ascii) : strings.Split s sep <> [].
Proof.
  destruct s as [|c s]; simpl; [discriminate|].
  destruct (Ascii.eqb c sep); [discriminate|].
  destruct (strings.Split s sep); discriminate.
Qed.

Lemma Split_app_sep (s : string) (sep : ascii) :
  strings.Split (s +:+ String sep "") sep = strings.Split s sep ++ [""].
Proof.
  induction s as [|c s IH]; simpl.
  - rewrite Ascii.eqb_refl. reflexivity.
  - rewrite IH. destruct (Ascii.eqb c sep); [reflexivity|].
    pose proof (Split_not_nil s sep) as Hnil.
    destruct (strings.Split s sep); [contradiction|reflexivity].
Qed.

Lemma string_of_list_ascii_snoc (l : list ascii) (c : ascii) :
  string_of_list_ascii (l ++ [c]) = string_of_list_ascii l +:+ String c "".
Proof. induction l as [|a l IH]; simpl; [reflexivity|]. rewrite IH. reflexivity. Qed.

Lemma scanLines_skip_empty (lines : list string) (m : gmap string (list ascii)) :
  scanLines (filter (fun l => l <> "") lines) m = scanLines lines m.
Proof.
  revert m. induction lines as [|line lines IH]; intros m; [reflexivity|].
  rewrite filter_cons. destruct (decide (line <> "")) as [Hne|He].
  - simpl. destruct (Nat.eqb (String.length line) 0); [apply IH|].
    destruct (strings.Split line " ") as [|f0 [|f1 [|f2 [|f3 fs]]]]; try reflexivity.
    destruct (base64.DecodeString f2) as [b [err|]]; [reflexivity|apply IH].
  - destruct (decide (line = "")) as [->|Hne]; [|contradiction].
    simpl. apply IH.
Qed.

(** The verdict of the callback over a table. *)
Lemma hostKeyCallback_nil (m : gmap string (list ascii)) hostname remote key :
  hostKeyCallback m hostname remote key = None <-> m !! KeyType key = Some (Marshal key).
Proof.
  unfold hostKeyCallback, bytes.Equal.
  destruct (m !! KeyType key) as [knownKey|]; [|split; discriminate].
  destruct (bool_decide_reflect (Marshal key = knownKey)) as [Heq|Hne]; simpl.
  - split; [intros _; f_equal; symmetry; exact Heq|reflexivity].
  - split; [discriminate|]. intros [= Heq]. symmetry in Heq. contradiction.
Qed.

(** C1.  The callback that [ParseSSHKeyScan] returns fails closed.  Whatever
    the input, a key is accepted only if some line of the input is a record
    of exactly the key's type whose third field decodes, as base64, to
    exactly the key's marshaled bytes.  On the single record
    [example 1 QUJD] the callback accepts the key of type [1] with bytes
    [ABC], rejects every key of type [2] with the error
    [unknown key type '2'], and rejects every key of type [1] with other
    bytes with the error [public key mismatch]. *)
Theorem ParseSSHKeyScan_fails_closed :
  (forall knownHosts cb hostname remote key,
      ParseSSHKeyScan knownHosts = inr cb ->
      cb hostname remote key = None ->
      exists line host key64,
        line ∈ strings.Split (string_of_list_ascii knownHosts) "010" /\
        strings.Split line " " = [host; KeyType key; key64] /\
        base64.DecodeString key64 = (Marshal key, None))
  /\ exists cb,
      ParseSSHKeyScan (list_ascii_of_string "example 1 QUJD") = inr cb /\
      (forall hostname remote,
          cb hostname remote
             {| KeyType := "1"; Marshal := list_ascii_of_string "ABC" |} = None) /\
      (forall hostname remote marshaled,
          cb hostname remote {| KeyType := "2"; Marshal := marshaled |}
          = Some (Errorf "unknown key type '2'")) /\
      (forall hostname remote marshaled,
          marshaled <> list_ascii_of_string "ABC" ->
          cb hostname remote {| KeyType := "1"; Marshal := marshaled |}
          = Some (Errorf "public key mismatch")).
Proof.
  split.
  - intros knownHosts cb hostname remote key Hparse Hok.
    unfold ParseSSHKeyScan in Hparse.
    destruct (scanLines _ ∅) as [err|m] eqn:Hscan; [discriminate Hparse|].
    injection Hparse as <-. apply hostKeyCallback_nil in Hok.
    destruct (scanLines_lookup_inv _ _ _ _ _ Hscan Hok) as [Hempty|H]; [|exact H].
    rewrite lookup_empty in Hempty. discriminate Hempty.
  - exists (hostKeyCallback (<["1" := list_ascii_of_string "ABC"]> ∅)).
    split; [|split; [|split]].
    + unfold ParseSSHKeyScan.
      change (strings.Split _ "010") with ["example 1 QUJD"].
      rewrite (scanLines_record "example 1 QUJD" "example" "1" "QUJD"
                 (list_ascii_of_string "ABC")) by reflexivity.
      reflexivity.
    + intros hostname remote. apply hostKeyCallback_nil. simpl.
      apply lookup_insert_eq.
    + intros hostname remote marshaled. unfold hostKeyCallback. simpl.
      rewrite lookup_insert_ne by discriminate. rewrite lookup_empty. reflexivity.
    + intros hostname remote marshaled Hne. unfold hostKeyCallback, bytes.Equal. simpl.
      rewrite lookup_insert_eq.
      rewrite bool_decide_eq_false_2 by exact Hne. reflexivity.
Qed.

(** C1 at the record [example 1 QUJD] and the key of type [1] with bytes
    [ABC]: the record that justifies the acceptance is found. *)
Lemma ParseSSHKeyScan_fails_closed_witness :
  exists line host key64,
    line ∈ strings.Split "example 1 QUJD" "010" /\
    strings.Split line " " = [host; "1"; key64] /\
    base64.DecodeString key64 = (list_ascii_of_string "ABC", None).
Proof.
  apply (proj1 ParseSSHKeyScan_fails_closed
           (list_ascii_of_string "example 1 QUJD")
           (hostKeyCallback (<["1" := list_ascii_of_string "ABC"]> ∅))
           "localhost" {| Network := "tcp"; AddrString := "127.0.0.1:22" |}
           {| KeyType := "1"; Marshal := list_ascii_of_string "ABC" |}).
  - vm_compute. reflexivity.
  - vm_compute. reflexivity.
Defined.

(** C4.  [ParseSSHKeyScan] fails hard on malformed input: when some line of
    the input is not empty and either does not split on spaces into exactly
    three fields or has a third field that the base64 decoder rejects, the
    result is an error and no callback, whatever the other lines are. *)
Theorem ParseSSHKeyScan_malformed (knownHosts : list ascii) (line : string) :
  line ∈ strings.Split (string_of_list_ascii knownHosts) "010" ->
  line <> "" ->
  (length (strings.Split line " ") <> 3 \/
   exists host keyType key64,
     strings.Split line " " = [host; keyType; key64] /\
     snd (base64.DecodeString key64) <> None) ->
  exists err, ParseSSHKeyScan knownHosts = inl err.
Proof.
  intros Hin Hne Hbad. unfold ParseSSHKeyScan.
  destruct (scanLines_malformed _ ∅ line Hin Hne Hbad) as [err ->].
  exists err. reflexivity.
Qed.

(** C4 on a well-formed record followed by the two-field record
    [example 1]. *)
Lemma ParseSSHKeyScan_malformed_witness :
  exists err,
    ParseSSHKeyScan (list_ascii_of_string ("example 1 QUJD" +:+ newline +:+ "example 1"))
    = inl err.
Proof.
  apply (ParseSSHKeyScan_malformed _ "example 1").
  - vm_compute. apply elem_of_cons. right. apply elem_of_cons. left. reflexivity.
  - discriminate.
  - left. vm_compute. lia.
Defined.

(** C9.  The verdict of the callback depends on the key's type and
    marshaled bytes only: two calls with keys of the same type and bytes
    give the same result, whatever the host names and remote addresses. *)
Theorem callback_ignores_host_and_address
    (knownHosts : list ascii) (cb : HostKeyCallback)
    (hostname1 hostname2 : string) (remote1 remote2 : Addr) (key1 key2 : PublicKey) :
  ParseSSHKeyScan knownHosts = inr cb ->
  KeyType key1 = KeyType key2 ->
  Marshal key1 = Marshal key2 ->
  cb hostname1 remote1 key1 = cb hostname2 remote2 key2.
Proof.
  intros Hparse Htype Hbytes. unfold ParseSSHKeyScan in Hparse.
  destruct (scanLines _ ∅) as [err|m]; [discriminate Hparse|].
  injection Hparse as <-. unfold hostKeyCallback.
  rewrite Htype, Hbytes. reflexivity.
Qed.

(** C9 on the record [example 1 QUJD], for two hosts and two addresses. *)
Lemma callback_ignores_host_and_address_witness :
  hostKeyCallback (<["1" := list_ascii_of_string "ABC"]> ∅)
    "localhost" {| Network := "tcp"; AddrString := "127.0.0.1:22" |}
    {| KeyType := "1"; Marshal := list_ascii_of_string "ABC" |}
  = hostKeyCallback (<["1" := list_ascii_of_string "ABC"]> ∅)
      "evil.example" {| Network := "tcp"; AddrString := "10.0.0.9:2222" |}
      {| KeyType := "1"; Marshal := list_ascii_of_string "ABC" |}.
Proof.
  apply (callback_ignores_host_and_address (list_ascii_of_string "example 1 QUJD")).
  - vm_compute. reflexivity.
  - reflexivity.
  - reflexivity.
Defined.

(** C10.  Empty lines are skipped: dropping them from the lines changes
    nothing, and an input with one more newline at its end parses to the same
    result.  Among the records of one key type the last one wins: when the
    input is accepted, a key of that type is accepted exactly when its
    marshaled bytes are those the last record of the type decodes to. *)
Theorem ParseSSHKeyScan_last_record_wins :
  (forall lines m,
      scanLines (filter (fun l => l <> "") lines) m = scanLines lines m)
  /\ (forall knownHosts,
         ParseSSHKeyScan (knownHosts ++ ["010"%char]) = ParseSSHKeyScan knownHosts)
  /\ (forall knownHosts cb before line after host keyType key64,
         ParseSSHKeyScan knownHosts = inr cb ->
         strings.Split (string_of_list_ascii knownHosts) "010" = before ++ line :: after ->
         strings.Split line " " = [host; keyType; key64] ->
         (forall l h k, l ∈ after -> strings.Split l " " <> [h; keyType; k]) ->
         forall hostname remote key,
           KeyType key = keyType ->
           (cb hostname remote key = None <->
            Marshal key = fst (base64.DecodeString key64))).
Proof.
  split; [exact scanLines_skip_empty|split].
  - intros knownHosts. unfold ParseSSHKeyScan.
    rewrite string_of_list_ascii_snoc, Split_app_sep, scanLines_app.
    destruct (scanLines _ ∅); reflexivity.
  - intros knownHosts cb before line after host keyType key64
      Hparse Hlines Hsplit Hlast hostname remote key Htype.
    unfold ParseSSHKeyScan in Hparse. rewrite Hlines, scanLines_app in Hparse.
    destruct (scanLines before ∅) as [err|m1]; [discriminate Hparse|].
    destruct (scanLines (line :: after) m1) as [err|m] eqn:Hscan; [discriminate Hparse|].
    injection Hparse as <-. rewrite hostKeyCallback_nil, Htype.
    destruct (base64.DecodeString key64) as [b [err|]] eqn:Hdec.
    + simpl in Hscan. destruct (Nat.eqb (String.length line) 0) eqn:Hlen.
      * apply length_0_empty in Hlen. subst line. discriminate Hsplit.
      * rewrite Hsplit, Hdec in Hscan. discriminate Hscan.
    + rewrite (scanLines_record _ _ _ _ _ _ _ Hsplit Hdec) in Hscan.
      rewrite (scanLines_other_types _ _ _ _ Hlast Hscan), lookup_insert_eq. simpl.
      split; [intros [= ->]; reflexivity|intros ->; reflexivity].
Qed.

(** C10 on two records of type [1], [QUJD] then [QUJE], and a final
    newline: the bytes of the first record, [ABC], are accepted exactly when
    they are the bytes [ABD] of the second, that is, they are not. *)
Lemma ParseSSHKeyScan_last_record_wins_witness :
  hostKeyCallback (<["1" := list_ascii_of_string "ABD"]> ∅)
    "localhost" {| Network := "tcp"; AddrString := "127.0.0.1:22" |}
    {| KeyType := "1"; Marshal := list_ascii_of_string "ABC" |} = None
  <-> list_ascii_of_string "ABC" = fst (base64.DecodeString "QUJE").
Proof.
  apply (proj2 (proj2 ParseSSHKeyScan_last_record_wins)
           (list_ascii_of_string ("h 1 QUJD" +:+ newline +:+ "h 1 QUJE" +:+ newline))
           _ ["h 1 QUJD"] "h 1 QUJE" [""] "h" "1" "QUJE").
  - vm_compute. reflexivity.
  - vm_compute. reflexivity.
  - reflexivity.
  - intros l h k Hin. apply elem_of_cons in Hin as [->|Hin]; [discriminate|inversion Hin].
  - reflexivity.
Defined.

(** ** The read loops *)

Lemma HasPrefix_true (s p : list ascii) :
  bytes.HasPrefix s p = true <-> exists rest, s = p ++ rest.
Proof.
  revert s. induction p as [|a p IH]; intros s.
  - split; [intros _; exists s; reflexivity|intros _; destruct s; reflexivity].
  - destruct s as [|c s].
    + split; [discriminate|intros [rest H]; discriminate H].
    + cbn [bytes.HasPrefix]. rewrite andb_true_iff, Ascii.eqb_eq, IH. split.
      * intros [-> [rest ->]]. exists rest. reflexivity.
      * intros [rest [= -> ->]]. split; [reflexivity|exists rest; reflexivity].
Qed.

Lemma sentinel_not_delimited (chunk : list ascii) :
  sentinel chunk -> ~ delimited chunk.
Proof.
  intros Hs Hd. apply HasPrefix_true in Hs as [rest ->]. discriminate Hd.
Qed.

Lemma status_byte (rest : list ascii) :
  (statusPrefix ++ rest) !! length statusPrefix = rest !! 0.
Proof. reflexivity. Qed.

(** The loop of [scanSSHIdentity] on chunks without sentinel followed by the
    success sentinel. *)
Lemma scanSSHIdentity_loop_success (chunks : list (list ascii)) (status : list ascii)
    (later : list selected) (ret : list ascii) :
  Forall (fun chunk => ~ sentinel chunk) chunks ->
  scanSSHIdentity_loop
    (map SerialData chunks ++ SerialData (statusPrefix ++ "0"%char :: status) :: later) ret
  = Returns (ret ++ concat (filter delimited chunks)).
Proof.
  intros Hno. revert ret. induction Hno as [|chunk chunks Hchunk Hno IH]; intros ret.
  - simpl map. simpl app at 1. rewrite app_nil_r.
    reflexivity.
  - simpl map. rewrite <- app_comm_cons. cbn [scanSSHIdentity_loop].
    unfold sentinel in Hchunk. apply not_true_is_false in Hchunk. rewrite Hchunk.
    rewrite filter_cons.
    destruct (decide (delimited chunk)) as [Hd|Hd]; unfold delimited in Hd.
    + destruct chunk as [|c chunk]; [discriminate Hd|].
      injection Hd as ->. cbn [length Nat.eqb lookup list_lookup Ascii.eqb Bool.eqb].
      rewrite IH, <- app_assoc. reflexivity.
    + destruct chunk as [|c chunk]; [apply IH|].
      cbn [length Nat.eqb lookup list_lookup].
      destruct (Ascii.eqb c "|") eqn:Hc; [|apply IH].
      apply Ascii.eqb_eq in Hc. subst c. contradiction Hd. reflexivity.
Qed.

(** Conversely, the loop returns bytes only that way. *)
Lemma scanSSHIdentity_loop_returns (cases : list selected) (ret out : list ascii) :
  scanSSHIdentity_loop cases ret = Returns out ->
  exists chunks status later,
    cases = map SerialData chunks
            ++ SerialData (statusPrefix ++ "0"%char :: status) :: later /\
    Forall (fun chunk => ~ sentinel chunk) chunks /\
    out = ret ++ concat (filter delimited chunks).
Proof.
  revert ret. induction cases as [|[err| |data] cases IH]; intros ret Hloop;
    try discriminate Hloop.
  cbn [scanSSHIdentity_loop] in Hloop.
  assert (Hskip : forall ret',
             scanSSHIdentity_loop cases ret' = Returns out ->
             ~ sentinel data ->
             ret' = ret ++ concat (filter delimited [data]) ->
             exists chunks status later,
               SerialData data :: cases
               = map SerialData chunks
                 ++ SerialData (statusPrefix ++ "0"%char :: status) :: later /\
               Forall (fun chunk => ~ sentinel chunk) chunks /\
               out = ret ++ concat (filter delimited chunks)).
  { intros ret' Hrec Hns Hret.
    destruct (IH _ Hrec) as (chunks & status & later & -> & Hno & ->).
    exists (data :: chunks), status, later. split; [reflexivity|].
    split; [constructor; assumption|].
    subst ret'. change (data :: chunks) with ([data] ++ chunks).
    rewrite filter_app, concat_app, app_assoc. reflexivity. }
  destruct data as [|c data].
  - apply (Hskip ret Hloop); [discriminate|].
    rewrite app_nil_r. reflexivity.
  - change (Nat.eqb (length (c :: data)) 0) with false in Hloop. cbv iota in Hloop.
    destruct (bytes.HasPrefix (c :: data) statusPrefix) eqn:Hpre.
    + apply HasPrefix_true in Hpre as [rest Hrest]. rewrite Hrest in Hloop.
      destruct (Nat.eqb (length _) (length statusPrefix)); [discriminate Hloop|].
      rewrite status_byte in Hloop.
      destruct rest as [|s status]; [discriminate Hloop|].
      cbn [lookup list_lookup] in Hloop.
      destruct (Ascii.eqb s "0") eqn:Hs; [|discriminate Hloop].
      apply Ascii.eqb_eq in Hs. subst s. injection Hloop as <-.
      exists [], status, cases. rewrite Hrest.
      split; [reflexivity|]. split; [constructor|].
      rewrite app_nil_r. reflexivity.
    + assert (Hns : ~ sentinel (c :: data)).
      { unfold sentinel. rewrite Hpre. discriminate. }
      cbn [lookup list_lookup] in Hloop.
      destruct (Ascii.eqb c "|") eqn:Hc.
      * apply Ascii.eqb_eq in Hc. subst c.
        apply (Hskip _ Hloop Hns). simpl. rewrite app_nil_r. reflexivity.
      * apply (Hskip _ Hloop Hns).
        rewrite filter_cons. destruct (decide _) as [Hd|_].
        -- injection Hd as ->. discriminate Hc.
        -- rewrite app_nil_r. reflexivity.
Qed.

(** C7.  Once the key-scan command is written, [scanSSHIdentity] returns
    bytes exactly when the console delivers chunks without sentinel and then
    a chunk that starts with [SERIAL STATUS: 0]; what it returns is then the
    concatenation, in arrival order, of those of the earlier chunks whose
    first byte is [|], and nothing else. *)
Theorem scanSSHIdentity_returns_delimited (vi : Instance) (out : list ascii) :
  writeSerial vi (list_ascii_of_string keyscanCmd) = None ->
  (scanSSHIdentity vi = Returns out <->
   exists chunks status later,
     serial vi = map SerialData chunks
                 ++ SerialData (statusPrefix ++ "0"%char :: status) :: later /\
     Forall (fun chunk => ~ sentinel chunk) chunks /\
     out = concat (filter delimited chunks)).
Proof.
  intros Hwrite. unfold scanSSHIdentity. rewrite Hwrite. split.
  - intros Hloop. apply scanSSHIdentity_loop_returns in Hloop. exact Hloop.
  - intros (chunks & status & later & -> & Hno & ->).
    apply (scanSSHIdentity_loop_success chunks status later [] Hno).
Qed.

(** C7 on the sample console: the two key-scan lines are returned, the echo
    of the command and the sentinel are not. *)
Lemma scanSSHIdentity_returns_delimited_witness :
  scanSSHIdentity sample_instance
  = Returns (list_ascii_of_string "|1|aaa= ssh-rsa QUJD|1|bbb= ssh-ed25519 QUJE").
Proof.
  apply (proj2 (scanSSHIdentity_returns_delimited sample_instance _ eq_refl)).
  exists sample_chunks, [], []. split; [reflexivity|]. split; [|vm_compute; reflexivity].
  repeat constructor; unfold sentinel; vm_compute; discriminate.
Defined.

(** After the prefix test and the length test, the status byte is there. *)
Lemma status_byte_present (data : list ascii) :
  bytes.HasPrefix data statusPrefix = true ->
  Nat.eqb (length data) (length statusPrefix) = false ->
  exists c, data !! length statusPrefix = Some c.
Proof.
  intros Hpre Hlen. apply HasPrefix_true in Hpre as [rest ->].
  rewrite status_byte. destruct rest as [|c rest]; [|exists c; reflexivity].
  rewrite app_nil_r, Nat.eqb_refl in Hlen. discriminate Hlen.
Qed.

(** The indexing in the loop of [scanSSHIdentity] never goes out of range. *)
Lemma scanSSHIdentity_loop_no_panic (cases : list selected) (ret : list ascii) :
  scanSSHIdentity_loop cases ret <> Panics.
Proof.
  revert ret. induction cases as [|[err| |data] cases IH]; intros ret; try discriminate.
  cbn [scanSSHIdentity_loop]. destruct data as [|c data]; [apply IH|].
  change (Nat.eqb (length (c :: data)) 0) with false. cbv iota.
  destruct (bytes.HasPrefix (c :: data) statusPrefix) eqn:Hpre.
  - destruct (Nat.eqb (length (c :: data)) (length statusPrefix)) eqn:Hlen;
      [discriminate|].
    destruct (status_byte_present _ Hpre Hlen) as [b ->].
    destruct (negb (Ascii.eqb b "0")); discriminate.
  - cbn [lookup list_lookup]. destruct (Ascii.eqb c "|"); apply IH.
Qed.

(** In both loops, cancellation ends the call with the context's own error
    and the timer with a time-out error; here for the key scan. *)
Lemma scanSSHIdentity_loop_cancelled (err : error) (cases : list selected)
    (ret : list ascii) :
  scanSSHIdentity_loop (CtxDone err :: cases) ret = Fails err.
Proof. reflexivity. Qed.

Lemma scanSSHIdentity_loop_timed_out (cases : list selected) (ret : list ascii) :
  scanSSHIdentity_loop (DeadlinePassed :: cases) ret
  = Fails (Errorf "keyscan command timed out").
Proof. reflexivity. Qed.

Section BootstrapLoop.

Variable Signer : Type.
Variable getLogErrMsg : string -> string.

(** Chunks without sentinel are logged, in arrival order, and the loop
    goes on. *)
Lemma sshSetup_loop_logs (sshSigner : Signer) (chunks : list (list ascii))
    (cases : list selected) (log : list ascii) :
  Forall (fun chunk => ~ sentinel chunk) chunks ->
  sshSetup_loop Signer getLogErrMsg sshSigner (map SerialData chunks ++ cases) log
  = sshSetup_loop Signer getLogErrMsg sshSigner cases (log ++ concat chunks).
Proof.
  intros Hno. revert log. induction Hno as [|chunk chunks Hchunk Hno IH]; intros log.
  - simpl. rewrite app_nil_r. reflexivity.
  - simpl map. rewrite <- app_comm_cons. cbn [sshSetup_loop].
    unfold sentinel in Hchunk. apply not_true_is_false in Hchunk. rewrite Hchunk.
    rewrite IH. simpl concat. rewrite app_assoc. reflexivity.
Qed.

(** A sentinel with the status [0] ends the loop with the signer. *)
Lemma sshSetup_loop_status_zero (sshSigner : Signer) (rest : list ascii)
    (cases : list selected) (log : list ascii) :
  sshSetup_loop Signer getLogErrMsg sshSigner
    (SerialData (statusPrefix ++ "0"%char :: rest) :: cases) log
  = Returns sshSigner.
Proof.
  cbn [sshSetup_loop].
  assert (Hpre : bytes.HasPrefix (statusPrefix ++ "0"%char :: rest) statusPrefix = true).
  { apply HasPrefix_true. eexists. reflexivity. }
  rewrite Hpre, status_byte. reflexivity.
Qed.

(** A sentinel with another status ends the loop with an error whose
    message holds the status and what [getLogErrMsg] makes of the log, the
    sentinel chunk included. *)
Lemma sshSetup_loop_status_other (sshSigner : Signer) (c : ascii) (rest : list ascii)
    (cases : list selected) (log : list ascii) :
  c <> "0"%char ->
  sshSetup_loop Signer getLogErrMsg sshSigner
    (SerialData (statusPrefix ++ c :: rest) :: cases) log
  = Fails (Errorf ("non-zero setup command status code: '" +:+ string_of_rune c
                   +:+ "' "
                   +:+ getLogErrMsg
                         (string_of_list_ascii (log ++ statusPrefix ++ c :: rest)))).
Proof.
  intros Hc. cbn [sshSetup_loop].
  assert (Hpre : bytes.HasPrefix (statusPrefix ++ c :: rest) statusPrefix = true).
  { apply HasPrefix_true. eexists. reflexivity. }
  rewrite Hpre, status_byte.
  replace (Nat.eqb (length (statusPrefix ++ c :: rest)) (length statusPrefix))
    with false.
  - cbn [lookup list_lookup]. apply Ascii.eqb_neq in Hc. rewrite Hc. reflexivity.
  - symmetry. apply Nat.eqb_neq. rewrite length_app. simpl. lia.
Qed.

(** Cancellation ends the loop with the context's own error, and the timer
    with a time-out error that holds the log so far. *)
Lemma sshSetup_loop_cancelled (sshSigner : Signer) (err : error)
    (cases : list selected) (log : list ascii) :
  sshSetup_loop Signer getLogErrMsg sshSigner (CtxDone err :: cases) log = Fails err.
Proof. reflexivity. Qed.

Lemma sshSetup_loop_timed_out (sshSigner : Signer)
    (cases : list selected) (log : list ascii) :
  sshSetup_loop Signer getLogErrMsg sshSigner (DeadlinePassed :: cases) log
  = Fails (Errorf ("setup command timed out "
                   +:+ getLogErrMsg (string_of_list_ascii log))).
Proof. reflexivity. Qed.

(** The indexing in the loop of [sshSetup] never goes out of range. *)
Lemma sshSetup_loop_no_panic (sshSigner : Signer) (cases : list selected)
    (log : list ascii) :
  sshSetup_loop Signer getLogErrMsg sshSigner cases log <> Panics.
Proof.
  revert log. induction cases as [|[err| |data] cases IH]; intros log; try discriminate.
  cbn [sshSetup_loop].
  destruct (bytes.HasPrefix data statusPrefix) eqn:Hpre; [|apply IH].
  destruct (Nat.eqb (length data) (length statusPrefix)) eqn:Hlen; [discriminate|].
  destruct (status_byte_present _ Hpre Hlen) as [b ->].
  destruct (negb (Ascii.eqb b "0")); discriminate.
Qed.

(** The error for a missing status is neither the error for a wrong status
    nor the time-out error, whatever the log. *)
Lemma missing_status_error_distinct (c : ascii) (log : string) :
  Errorf "setup command status code did not show up"
  <> Errorf ("non-zero setup command status code: '" +:+ string_of_rune c +:+ "' "
             +:+ getLogErrMsg log)
  /\ Errorf "setup command status code did not show up"
     <> Errorf ("setup command timed out " +:+ getLogErrMsg log).
Proof.
  split; intros [= H].
Qed.

(** C2, where the code departs from it.  A chunk that is the prefix
    [SERIAL STATUS: ] and nothing more ends the loop with an error of its
    own, but the error is one fixed message: it is the same whatever was
    logged before and whatever [getLogErrMsg] does, so the log is not
    surfaced with it. *)
Theorem sshSetup_bare_sentinel_drops_log (sshSigner : Signer)
    (cases : list selected) (log : list ascii) :
  sshSetup_loop Signer getLogErrMsg sshSigner (SerialData statusPrefix :: cases) log
  = Fails (Errorf "setup command status code did not show up").
Proof. reflexivity. Qed.

End BootstrapLoop.

Section BootstrapCall.

Variables Signer PrivateKey : Type.
Variable rsa_GenerateKey : nat -> error + PrivateKey.
Variable ssh_NewSignerFromKey : PrivateKey -> error + Signer.
Variable ssh_MarshalAuthorizedKey : Signer -> list ascii.
Variable shellescape_Quote : string -> string.
Variable getLogErrMsg : string -> string.

(** With a key generated and the command written, [sshSetup] is its read
    loop, started on an empty log. *)
Lemma sshSetup_runs_loop (vi : Instance) (sshSigner : Signer) (sshPublicKey : list ascii) :
  generateSSHKey Signer PrivateKey rsa_GenerateKey ssh_NewSignerFromKey
    ssh_MarshalAuthorizedKey = inr (sshSigner, sshPublicKey) ->
  writeSerial vi (list_ascii_of_string (setupCmd shellescape_Quote sshPublicKey)) = None ->
  sshSetup Signer PrivateKey rsa_GenerateKey ssh_NewSignerFromKey
    ssh_MarshalAuthorizedKey shellescape_Quote getLogErrMsg vi
  = sshSetup_loop Signer getLogErrMsg sshSigner (serial vi) [].
Proof.
  intros Hkey Hwrite. unfold sshSetup. rewrite Hkey, Hwrite. reflexivity.
Qed.

End BootstrapCall.

(** ** The command runner *)

Section RunCommand.

Variable wrapErrWithLog : error -> string -> string -> error.

(** C8.  On a session that could be opened: when running the command
    fails, [runSSHCmd] returns no bytes and the error that [wrapErrWithLog]
    makes of the transport error of [Run], the message [run cmd] and the
    text the command wrote to its standard error; when running succeeds, it
    returns the bytes the command wrote to its standard output and no
    error. *)
Theorem runSSHCmd_result (c : Client) (sess : Session) (cmd : string) :
  NewSession c = inr sess ->
  (forall err,
      ranErr (Run sess cmd) = Some err ->
      fst (runSSHCmd wrapErrWithLog c cmd)
      = inl (wrapErrWithLog err "run cmd"
               (string_of_list_ascii (ranStderr (Run sess cmd)))))
  /\ (ranErr (Run sess cmd) = None ->
      fst (runSSHCmd wrapErrWithLog c cmd) = inr (ranStdout (Run sess cmd))).
Proof.
  intros Hsess. unfold runSSHCmd. rewrite Hsess.
  split; [intros err Herr|intros Herr]; rewrite Herr; reflexivity.
Qed.

(** When no session can be opened the command is not run, and the error of
    [NewSession] is wrapped. *)
Lemma runSSHCmd_no_session (c : Client) (err : error) (cmd : string) :
  NewSession c = inl err ->
  runSSHCmd wrapErrWithLog c cmd = (inl (Wrap err "create new vm ssh session"), false).
Proof. intros Hsess. unfold runSSHCmd. rewrite Hsess. reflexivity. Qed.

(** The session is closed on both ways out, once it exists. *)
Lemma runSSHCmd_closes (c : Client) (sess : Session) (cmd : string) :
  NewSession c = inr sess -> snd (runSSHCmd wrapErrWithLog c cmd) = true.
Proof.
  intros Hsess. unfold runSSHCmd. rewrite Hsess.
  destruct (ranErr (Run sess cmd)); reflexivity.
Qed.

End RunCommand.

(** C8 on the sample remote end: [ls /mnt] fails and the error holds the
    transport error and the text of the standard error; [true] succeeds with
    no output. *)
Lemma runSSHCmd_result_witness :
  fst (runSSHCmd sample_wrap sample_client "ls /mnt")
  = inl (Wrap (Transport "Process exited with status 2")
           "run cmd (log: 'ls: /mnt: No such file')")
  /\ fst (runSSHCmd sample_wrap sample_client "true") = inr [].
Proof.
  split.
  - apply (proj1 (runSSHCmd_result sample_wrap sample_client sample_session
                    "ls /mnt" eq_refl)).
    reflexivity.
  - apply (proj2 (runSSHCmd_result sample_wrap sample_client sample_session
                    "true" eq_refl)).
    reflexivity.
Defined.

(** ** The key/value argument *)

Lemma string_app_assoc (s1 s2 s3 : string) : (s1 +:+ s2) +:+ s3 = s1 +:+ s2 +:+ s3.
Proof.
  induction s1 as [|c s1 IH]; [reflexivity|].
  change (String c ((s1 +:+ s2) +:+ s3) = String c (s1 +:+ s2 +:+ s3)).
  rewrite IH. reflexivity.
Qed.

Section KeyValue.

Import qemucli.

Variable validateArgKey : string -> ArgAcceptedValue -> option error.
Variable validateArgStrValue : string -> option error.

Lemma accepted_or_rejected (it : KeyValueArgItem) :
  accepted validateArgStrValue it \/ rejected validateArgStrValue it.
Proof.
  unfold accepted, rejected.
  destruct (decide (Key it = "")) as [?|?]; [tauto|].
  destruct (decide (Value it = "")) as [?|?]; [tauto|].
  destruct (validateArgStrValue (Key it)); [right; right; right; left; discriminate|].
  destruct (validateArgStrValue (Value it)); [right; right; right; right; discriminate|].
  left. tauto.
Qed.

Lemma accepted_not_rejected (it : KeyValueArgItem) :
  accepted validateArgStrValue it -> ~ rejected validateArgStrValue it.
Proof. unfold accepted, rejected. intros (? & ? & ? & ?) [?|[?|[?|?]]]; contradiction. Qed.

(** *** One turn of the loop of [NewKeyValueArg] *)

Lemma copyItems_rejected (a : KeyValueArg) (s : Slice) (k : nat) (idx : list nat)
    (h : store) (it : KeyValueArgItem) :
  index s k h = Some it -> rejected validateArgStrValue it ->
  exists err, copyItems validateArgStrValue a s (k :: idx) h = Some (Some err, h).
Proof.
  intros Hget Hrej. cbn [copyItems]. rewrite Hget.
  destruct (Nat.eqb (String.length (Key it)) 0) eqn:Hk; [eauto|].
  destruct (Nat.eqb (String.length (Value it)) 0) eqn:Hv; [eauto|].
  destruct (validateArgStrValue (Key it)) as [e|] eqn:Hvk; [eauto|].
  destruct (validateArgStrValue (Value it)) as [e|] eqn:Hvv; [eauto|].
  exfalso. destruct Hrej as [H|[H|[H|H]]].
  - apply length_0_empty in H. rewrite H in Hk. discriminate Hk.
  - apply length_0_empty in H. rewrite H in Hv. discriminate Hv.
  - apply H. exact Hvk.
  - apply H. exact Hvv.
Qed.

Lemma copyItems_accepted (a : KeyValueArg) (s : Slice) (k : nat) (idx : list nat)
    (h : store) (it : KeyValueArgItem) :
  index s k h = Some it -> accepted validateArgStrValue it ->
  copyItems validateArgStrValue a s (k :: idx) h
  = match assign (items a) k it h with
    | Some h' => copyItems validateArgStrValue a s idx h'
    | None => None
    end.
Proof.
  intros Hget (Hk & Hv & Hvk & Hvv). cbn [copyItems]. rewrite Hget.
  destruct (Nat.eqb (String.length (Key it)) 0) eqn:Ek.
  { apply length_0_empty in Ek. contradiction. }
  destruct (Nat.eqb (String.length (Value it)) 0) eqn:Ev.
  { apply length_0_empty in Ev. contradiction. }
  rewrite Hvk, Hvv. reflexivity.
Qed.

(** *** The whole loop

    [s] is the caller's slice, a window on the array [src]; [l] is the
    address of the array that [make] returned, another array. *)

Section Copy.

Variables (ky : string) (l : loc) (s : Slice) (src : list KeyValueArgItem).
Hypothesis Hfresh : arr s <> l.
Hypothesis Hbound : off s + len s <= length src.

Local Abbreviation own := {| arr := l; off := 0; len := len s |}.
Local Abbreviation a := {| key := ky; items := own |}.
Local Abbreviation its := (take (len s) (drop (off s) src)).

Lemma its_lookup (k : nat) :
  k < len s -> exists it, its !! k = Some it /\ src !! (off s + k) = Some it.
Proof.
  intros Hk. destruct (lookup_lt_is_Some_2 src (off s + k)) as [it Hit]; [lia|].
  exists it. split; [|exact Hit].
  rewrite lookup_take_lt by exact Hk. rewrite lookup_drop. exact Hit.
Qed.

Lemma index_its (k : nat) (h : store) (it : KeyValueArgItem) :
  h !! arr s = Some src -> k < len s -> src !! (off s + k) = Some it ->
  index s k h = Some it.
Proof.
  intros Hsrc Hk Hit. unfold index. rewrite decide_True by exact Hk.
  rewrite Hsrc. exact Hit.
Qed.

Lemma assign_own (k : nat) (h : store) (own_arr : list KeyValueArgItem)
    (it : KeyValueArgItem) :
  h !! l = Some own_arr -> length own_arr = len s -> k < len s ->
  assign own k it h = Some (<[l := <[k := it]> own_arr]> h).
Proof.
  intros Hown Hlen Hk. unfold assign. cbn [arr off len].
  rewrite decide_True by exact Hk. rewrite Hown.
  rewrite decide_True by (simpl; lia). reflexivity.
Qed.

Lemma copyItems_all_accepted (todo k : nat) (h : store)
    (own_arr : list KeyValueArgItem) :
  k + todo = len s ->
  h !! arr s = Some src -> h !! l = Some own_arr -> length own_arr = len s ->
  Forall (accepted validateArgStrValue) (drop k its) ->
  copyItems validateArgStrValue a s (seq k todo) h
  = Some (None, <[l := take k own_arr ++ drop k its]> h).
Proof.
  revert k h own_arr.
  induction todo as [|todo IH]; intros k h own_arr Hk Hsrc Hown Hlen Hall.
  - cbn [seq copyItems]. rewrite take_ge by lia.
    rewrite drop_ge by (rewrite length_take, length_drop; lia).
    rewrite app_nil_r, insert_id by exact Hown. reflexivity.
  - destruct (its_lookup k) as (it & Hit & Hsrck); [lia|].
    rewrite (drop_S _ _ _ Hit) in Hall. apply Forall_cons in Hall as [Hacc Hall].
    assert (Hget : index s k h = Some it).
    { apply index_its; [exact Hsrc|lia|exact Hsrck]. }
    cbn [seq]. rewrite (copyItems_accepted a s k _ h it Hget Hacc).
    cbn [items]. rewrite (assign_own k h own_arr it Hown Hlen) by lia.
    rewrite (IH (S k) _ (<[k := it]> own_arr)).
    + rewrite insert_insert_eq. do 3 f_equal.
      rewrite (take_S_r _ _ it) by (apply list_lookup_insert_eq; lia).
      rewrite take_insert_ge by lia.
      rewrite (drop_S _ _ _ Hit), <- app_assoc. reflexivity.
    + lia.
    + rewrite lookup_insert_ne by (intros E; apply Hfresh; symmetry; exact E).
      exact Hsrc.
    + apply lookup_insert_eq.
    + rewrite length_insert. exact Hlen.
    + exact Hall.
Qed.

Lemma copyItems_some_rejected (todo k : nat) (h : store)
    (own_arr : list KeyValueArgItem) :
  k + todo = len s ->
  h !! arr s = Some src -> h !! l = Some own_arr -> length own_arr = len s ->
  Exists (rejected validateArgStrValue) (drop k its) ->
  exists err h', copyItems validateArgStrValue a s (seq k todo) h = Some (Some err, h').
Proof.
  revert k h own_arr.
  induction todo as [|todo IH]; intros k h own_arr Hk Hsrc Hown Hlen Hex.
  - rewrite drop_ge in Hex by (rewrite length_take, length_drop; lia).
    inversion Hex.
  - destruct (its_lookup k) as (it & Hit & Hsrck); [lia|].
    assert (Hget : index s k h = Some it).
    { apply index_its; [exact Hsrc|lia|exact Hsrck]. }
    cbn [seq].
    destruct (accepted_or_rejected it) as [Hacc|Hrej].
    + rewrite (drop_S _ _ _ Hit) in Hex. apply Exists_cons in Hex as [Hrej|Hex].
      { exfalso. exact (accepted_not_rejected it Hacc Hrej). }
      rewrite (copyItems_accepted a s k _ h it Hget Hacc).
      cbn [items]. rewrite (assign_own k h own_arr it Hown Hlen) by lia.
      apply (IH (S k) _ (<[k := it]> own_arr)).
      * lia.
      * rewrite lookup_insert_ne by (intros E; apply Hfresh; symmetry; exact E).
        exact Hsrc.
      * apply lookup_insert_eq.
      * rewrite length_insert. exact Hlen.
      * exact Hex.
    + destruct (copyItems_rejected a s k (seq (S k) todo) h it Hget Hrej) as [err Herr].
      exists err, h. exact Herr.
Qed.

End Copy.

(** *** [NewKeyValueArg] *)

Lemma Forall_accepted_or_Exists_rejected (its : list KeyValueArgItem) :
  Forall (accepted validateArgStrValue) its \/ Exists (rejected validateArgStrValue) its.
Proof.
  induction its as [|it its [IH|IH]].
  - left. constructor.
  - destruct (accepted_or_rejected it) as [H|H].
    + left. constructor; assumption.
    + right. apply Exists_cons. left. exact H.
  - right. apply Exists_cons. right. exact IH.
Qed.

(** The address that [make] picks is not the array of a slice that is
    valid and not empty. *)
Lemma valid_slice_cases (s : Slice) (h : store) :
  valid_slice s h ->
  (len s = 0 /\ elems s h = []) \/
  (exists src, h !! arr s = Some src /\ off s + len s <= length src /\
               arr s <> fresh (dom h) /\
               elems s h = take (len s) (drop (off s) src)).
Proof.
  intros [Hnil|(src & Hsrc & Hbound)].
  - left. split; [exact Hnil|]. unfold elems. rewrite Hnil.
    destruct (h !! arr s); reflexivity.
  - right. exists src. split; [exact Hsrc|]. split; [exact Hbound|]. split.
    + intros E. apply (is_fresh (dom h)). rewrite <- E.
      apply elem_of_dom. exists src. exact Hsrc.
    + unfold elems. rewrite Hsrc. reflexivity.
Qed.

Lemma NewKeyValueArg_bad_key (key : string) (s : Slice) (h : store) (err : error) :
  validateArgKey key ArgAcceptedValueKeyValue = Some err ->
  fst (NewKeyValueArg validateArgKey validateArgStrValue key s h)
  = Fails (Wrap err "validate arg key").
Proof. intros Hkey. unfold NewKeyValueArg, make, ValueType. rewrite Hkey. reflexivity. Qed.

Lemma NewKeyValueArg_accepts (key : string) (s : Slice) (h : store) :
  valid_slice s h ->
  validateArgKey key ArgAcceptedValueKeyValue = None ->
  Forall (accepted validateArgStrValue) (elems s h) ->
  NewKeyValueArg validateArgKey validateArgStrValue key s h
  = (Returns (built key s h), <[fresh (dom h) := elems s h]> h).
Proof.
  intros Hvalid Hkey Hall. unfold NewKeyValueArg, make, ValueType. rewrite Hkey.
  destruct (valid_slice_cases s h Hvalid)
    as [[Hnil He]|(src & Hsrc & Hbound & Hfresh & He)]; rewrite He in *.
  - rewrite Hnil. cbn [seq copyItems replicate]. unfold built. rewrite Hnil.
    reflexivity.
  - rewrite (copyItems_all_accepted key (fresh (dom h)) s src Hfresh Hbound
               (len s) 0 _ (replicate (len s) zeroItem)).
    + rewrite insert_insert_eq. reflexivity.
    + reflexivity.
    + rewrite lookup_insert_ne by (intros E; apply Hfresh; symmetry; exact E).
      exact Hsrc.
    + apply lookup_insert_eq.
    + apply length_replicate.
    + exact Hall.
Qed.

Lemma NewKeyValueArg_rejected_item (key : string) (s : Slice) (h : store) :
  valid_slice s h ->
  Exists (rejected validateArgStrValue) (elems s h) ->
  exists err, fst (NewKeyValueArg validateArgKey validateArgStrValue key s h) = Fails err.
Proof.
  intros Hvalid Hex. unfold NewKeyValueArg, make, ValueType.
  destruct (validateArgKey key ArgAcceptedValueKeyValue) as [err|]; [eauto|].
  destruct (valid_slice_cases s h Hvalid)
    as [[Hnil He]|(src & Hsrc & Hbound & Hfresh & He)]; rewrite He in *.
  - inversion Hex.
  - destruct (copyItems_some_rejected key (fresh (dom h)) s src Hfresh Hbound
                (len s) 0 (<[fresh (dom h) := replicate (len s) zeroItem]> h)
                (replicate (len s) zeroItem)) as (err & h' & Hcopy).
    + reflexivity.
    + rewrite lookup_insert_ne by (intros E; apply Hfresh; symmetry; exact E).
      exact Hsrc.
    + apply lookup_insert_eq.
    + apply length_replicate.
    + exact Hex.
    + rewrite Hcopy. exists err. reflexivity.
Qed.

(** What a returned argument tells about the call. *)
Lemma NewKeyValueArg_returns (key : string) (s : Slice) (h h' : store) (a : KeyValueArg) :
  valid_slice s h ->
  NewKeyValueArg validateArgKey validateArgStrValue key s h = (Returns a, h') ->
  validateArgKey key ArgAcceptedValueKeyValue = None /\
  Forall (accepted validateArgStrValue) (elems s h) /\
  a = built key s h /\ h' = <[fresh (dom h) := elems s h]> h.
Proof.
  intros Hvalid Hnew.
  destruct (validateArgKey key ArgAcceptedValueKeyValue) as [err|] eqn:Hkey.
  { pose proof (NewKeyValueArg_bad_key key s h err Hkey) as H.
    rewrite Hnew in H. discriminate H. }
  destruct (Forall_accepted_or_Exists_rejected (elems s h)) as [Hall|Hex].
  - rewrite (NewKeyValueArg_accepts key s h Hvalid Hkey Hall) in Hnew.
    injection Hnew as <- <-. auto.
  - destruct (NewKeyValueArg_rejected_item key s h Hvalid Hex) as [err H].
    rewrite Hnew in H. discriminate H.
Qed.

(** On a slice the caller can hold, the indexing in the loop never goes out
    of range. *)
Lemma NewKeyValueArg_no_panic (key : string) (s : Slice) (h : store) :
  valid_slice s h ->
  fst (NewKeyValueArg validateArgKey validateArgStrValue key s h) <> Panics.
Proof.
  intros Hvalid.
  destruct (validateArgKey key ArgAcceptedValueKeyValue) as [err|] eqn:Hkey.
  { rewrite (NewKeyValueArg_bad_key key s h err Hkey). discriminate. }
  destruct (Forall_accepted_or_Exists_rejected (elems s h)) as [Hall|Hex].
  - rewrite (NewKeyValueArg_accepts key s h Hvalid Hkey Hall). discriminate.
  - destruct (NewKeyValueArg_rejected_item key s h Hvalid Hex) as [err ->]. discriminate.
Qed.

(** The items of the built argument are a copy of the caller's. *)
Lemma elems_built (key : string) (s : Slice) (h h' : store) :
  valid_slice s h ->
  h' !! fresh (dom h) = Some (elems s h) ->
  elems (items (built key s h)) h' = elems s h.
Proof.
  intros Hvalid Hown. unfold elems at 1. cbn [built items arr off len].
  rewrite Hown, drop_0. apply take_ge.
  destruct (valid_slice_cases s h Hvalid) as [[Hnil ->]|(src & _ & Hbound & _ & ->)].
  - simpl. lia.
  - rewrite length_take, length_drop. lia.
Qed.

(** C5.  For a slice the caller can hold: when one of its items has an
    empty key, an empty value, or a key or a value that the character
    policy refuses, [NewKeyValueArg] returns an error and no argument; and
    an argument that is returned has a key that passed [validateArgKey] and
    only items with a key and a value that are not empty and passed the
    policy. *)
Theorem NewKeyValueArg_rejects (key : string) (s : Slice) (h : store) :
  valid_slice s h ->
  (forall it,
      it ∈ elems s h -> rejected validateArgStrValue it ->
      exists err,
        fst (NewKeyValueArg validateArgKey validateArgStrValue key s h) = Fails err)
  /\ (forall a,
         fst (NewKeyValueArg validateArgKey validateArgStrValue key s h) = Returns a ->
         validateArgKey (StringKey a) ArgAcceptedValueKeyValue = None /\
         Forall (accepted validateArgStrValue)
           (elems (items a)
              (snd (NewKeyValueArg validateArgKey validateArgStrValue key s h)))).
Proof.
  intros Hvalid. split.
  - intros it Hin Hrej. apply NewKeyValueArg_rejected_item; [exact Hvalid|].
    apply Exists_exists. exists it. split; assumption.
  - intros a Hret.
    destruct (NewKeyValueArg validateArgKey validateArgStrValue key s h)
      as [r h'] eqn:Hnew.
    simpl in Hret. subst r.
    destruct (NewKeyValueArg_returns key s h h' a Hvalid Hnew)
      as (Hkey & Hall & -> & ->).
    split; [exact Hkey|]. simpl snd.
    rewrite (elems_built key s h _ Hvalid) by apply lookup_insert_eq.
    exact Hall.
Qed.

(** *** [StringValue] *)

(** What the loop writes for one item behind the builder. *)
Lemma item_written (sb : string) (it : KeyValueArgItem) :
  (if Nat.ltb 0 (String.length (Value it))
   then (sb +:+ Key it) +:+ ("=" +:+ Value it)
   else sb +:+ Key it)
  = sb +:+ spec_item it.
Proof.
  unfold spec_item. destruct (Value it) as [|c v]; [reflexivity|].
  cbn [String.length Nat.ltb Nat.leb String.eqb]. apply string_app_assoc.
Qed.

Lemma writeItems_later (its : list KeyValueArgItem) (i : nat) (sb : string) :
  Forall (fun it => Key it <> "") its ->
  writeItems its (S i) sb
  = match its with
    | [] => sb
    | _ :: _ => sb +:+ "," +:+ spec_join "," (map spec_item its)
    end.
Proof.
  intros Hkeys. revert i sb.
  induction Hkeys as [|it its Hkey Hkeys IH]; intros i sb; [reflexivity|].
  cbn [writeItems].
  destruct (String.eqb (Key it) "") eqn:Ek.
  { apply String.eqb_eq in Ek. contradiction. }
  cbn [Nat.eqb negb]. rewrite item_written, IH.
  destruct its as [|it' its'].
  - simpl. apply string_app_assoc.
  - cbn [map spec_join]. rewrite !string_app_assoc. reflexivity.
Qed.

Lemma writeItems_join (its : list KeyValueArgItem) :
  Forall (fun it => Key it <> "") its ->
  writeItems its 0 "" = spec_join "," (map spec_item its).
Proof.
  intros Hkeys. destruct Hkeys as [|it its Hkey Hkeys]; [reflexivity|].
  cbn [writeItems].
  destruct (String.eqb (Key it) "") eqn:Ek.
  { apply String.eqb_eq in Ek. contradiction. }
  cbn [Nat.eqb negb]. rewrite item_written, (writeItems_later its 0 _ Hkeys).
  destruct its as [|it' its']; reflexivity.
Qed.

(** Writing through a slice leaves the other arrays alone. *)
Lemma assigns_other_array (s : Slice) (l : loc)
    (ws : list (nat * KeyValueArgItem)) (h h' : store) :
  len s = 0 \/ arr s <> l ->
  assigns s ws h = Some h' -> h' !! l = h !! l.
Proof.
  intros Hother. revert h. induction ws as [|[i v] ws IH]; intros h Hws.
  - injection Hws as <-. reflexivity.
  - cbn [assigns] in Hws. unfold assign in Hws.
    destruct (decide (i < len s)) as [Hi|Hi]; [|discriminate Hws].
    destruct Hother as [Hnil|Hne]; [lia|].
    destruct (h !! arr s) as [a|]; [|discriminate Hws].
    destruct (decide (off s + i < length a)); [|discriminate Hws].
    rewrite (IH _ Hws). apply lookup_insert_ne. exact Hne.
Qed.

(** C6.  When [NewKeyValueArg] accepts the items of a slice the caller can
    hold, [StringValue] of the argument renders the items that the slice
    held at construction, in their order, each as [key=value] (or [key]
    alone for an empty value), joined with commas; it still renders exactly
    that after the caller has assigned to elements of its slice; and a
    second call renders the same as the first. *)
Theorem StringValue_renders (key : string) (s : Slice) (h h' : store) (a : KeyValueArg) :
  valid_slice s h ->
  NewKeyValueArg validateArgKey validateArgStrValue key s h = (Returns a, h') ->
  StringValue a h' = (spec_join "," (map spec_item (elems s h)), h')
  /\ (forall ws h'',
         assigns s ws h' = Some h'' ->
         fst (StringValue a h'') = spec_join "," (map spec_item (elems s h)))
  /\ (forall h0, StringValue a (snd (StringValue a h0)) = StringValue a h0).
Proof.
  intros Hvalid Hnew.
  destruct (NewKeyValueArg_returns key s h h' a Hvalid Hnew) as (_ & Hall & -> & ->).
  assert (Hkeys : Forall (fun it => Key it <> "") (elems s h)).
  { eapply Forall_impl; [exact Hall|]. intros it (Hk & _). exact Hk. }
  split; [|split].
  - unfold StringValue.
    rewrite (elems_built key s h _ Hvalid) by apply lookup_insert_eq.
    rewrite (writeItems_join _ Hkeys). reflexivity.
  - intros ws h'' Hws. unfold StringValue. cbn [fst].
    rewrite (elems_built key s h h'' Hvalid).
    + apply (writeItems_join _ Hkeys).
    + assert (Hother : len s = 0 \/ arr s <> fresh (dom h)).
      { destruct (valid_slice_cases s h Hvalid) as [[Hnil _]|(src & _ & _ & Hne & _)];
          [left; exact Hnil|right; exact Hne]. }
      rewrite (assigns_other_array s _ ws _ h'' Hother Hws).
      apply lookup_insert_eq.
  - intros h0. reflexivity.
Qed.

End KeyValue.

(** C5 on the sample store: the third item of the three-item slice has an
    empty value, and the policy and the first two items are fine. *)
Lemma NewKeyValueArg_rejects_witness :
  exists err,
    fst (qemucli.NewKeyValueArg sample_key_policy sample_policy "drive"
           sample_items3 sample_store) = Fails err.
Proof.
  apply (proj1 (NewKeyValueArg_rejects sample_key_policy sample_policy "drive"
                  sample_items3 sample_store
                  (or_intror (ex_intro _ _ (conj eq_refl (le_n 3)))))
           {| qemucli.Key := "readonly"; qemucli.Value := "" |}).
  - vm_compute. do 2 (apply elem_of_cons; right). apply elem_of_cons. left. reflexivity.
  - right. left. reflexivity.
Defined.

(** C6 on the sample store: the two-item slice is accepted and rendered, and
    the rendering stays after the caller overwrites the first item of its
    slice. *)
Lemma StringValue_renders_witness :
  qemucli.StringValue (built "drive" sample_items sample_store)
    (<[fresh (dom sample_store) := qemucli.elems sample_items sample_store]> sample_store)
  = ("file=disk.img,format=qcow2",
     <[fresh (dom sample_store) := qemucli.elems sample_items sample_store]> sample_store)
  /\ exists h'',
      assigns sample_items [(0, {| qemucli.Key := "file"; qemucli.Value := "x,y" |})]
        (<[fresh (dom sample_store) := qemucli.elems sample_items sample_store]> sample_store)
      = Some h'' /\
      qemucli.elems sample_items h''
      = [ {| qemucli.Key := "file"; qemucli.Value := "x,y" |};
          {| qemucli.Key := "format"; qemucli.Value := "qcow2" |} ] /\
      fst (qemucli.StringValue (built "drive" sample_items sample_store) h'')
      = "file=disk.img,format=qcow2".
Proof.
  assert (Hvalid : valid_slice sample_items sample_store).
  { right. eexists. split; [reflexivity|]. simpl. lia. }
  assert (Hnew : qemucli.NewKeyValueArg sample_key_policy sample_policy "drive"
                   sample_items sample_store
                 = (Returns (built "drive" sample_items sample_store),
                    <[fresh (dom sample_store)
                      := qemucli.elems sample_items sample_store]> sample_store)).
  { vm_compute. reflexivity. }
  destruct (StringValue_renders sample_key_policy sample_policy "drive"
              sample_items sample_store _ _ Hvalid Hnew) as (Hrender & Hkeep & _).
  split; [exact Hrender|].
  eexists. split; [vm_compute; reflexivity|]. split; [vm_compute; reflexivity|].
  apply (Hkeep [(0, {| qemucli.Key := "file"; qemucli.Value := "x,y" |})]).
  vm_compute. reflexivity.
Defined.

(** * Further properties of the code *)

(** ** [ParseSSHKeyScan]: which inputs are accepted, and which error is given *)

Lemma scanLines_step_error (line : string) (lines : list string)
    (m : gmap string (list ascii)) (err : error) :
  record_error line = Some err -> scanLines (line :: lines) m = inl err.
Proof.
  unfold record_error. cbn [scanLines].
  destruct (Nat.eqb (String.length line) 0); [discriminate|].
  destruct (strings.Split line " ") as [|f0 [|f1 [|f2 [|f3 fs]]]];
    try (intros [= <-]; reflexivity).
  destruct (base64.DecodeString f2) as [b [e|]]; simpl; [|discriminate].
  intros [= <-]. reflexivity.
Qed.

Lemma scanLines_step_ok (line : string) (lines : list string)
    (m : gmap string (list ascii)) :
  record_error line = None ->
  exists m', scanLines (line :: lines) m = scanLines lines m'.
Proof.
  unfold record_error. cbn [scanLines].
  destruct (Nat.eqb (String.length line) 0); [exists m; reflexivity|].
  destruct (strings.Split line " ") as [|f0 [|f1 [|f2 [|f3 fs]]]]; try discriminate.
  destruct (base64.DecodeString f2) as [b [e|]]; simpl; [discriminate|].
  intros _. eexists. reflexivity.
Qed.

Lemma record_error_None (line : string) :
  record_error line = None <-> line = "" \/ well_formed_record line.
Proof.
  unfold record_error, well_formed_record.
  destruct (Nat.eqb (String.length line) 0) eqn:Hlen.
  - apply length_0_empty in Hlen. split; [intros _; left; exact Hlen|reflexivity].
  - assert (Hne : line <> "").
    { intros ->. discriminate Hlen. }
    destruct (strings.Split line " ") as [|f0 [|f1 [|f2 [|f3 fs]]]];
      try (split; [discriminate|intros [?|(h & t & k & [=] & _)]; contradiction]).
    destruct (snd (base64.DecodeString f2)) as [e|] eqn:Hdec.
    + split; [discriminate|].
      intros [?|(h & t & k & [= <- <- <-] & Hk)]; [contradiction|].
      rewrite Hk in Hdec. discriminate Hdec.
    + split; [|reflexivity]. intros _. right. exists f0, f1, f2.
      split; [reflexivity|exact Hdec].
Qed.

Lemma scanLines_all_ok (lines : list string) (m : gmap string (list ascii)) :
  Forall (fun line => record_error line = None) lines ->
  exists m', scanLines lines m = inr m'.
Proof.
  intros Hall. revert m. induction Hall as [|line lines Hline Hall IH]; intros m.
  - exists m. reflexivity.
  - destruct (scanLines_step_ok line lines m Hline) as [m' ->]. apply IH.
Qed.

Lemma scanLines_first_error (lines : list string) (m : gmap string (list ascii))
    (err : error) :
  scanLines lines m = inl err <->
  exists good bad rest,
    lines = good ++ bad :: rest /\
    Forall (fun line => record_error line = None) good /\
    record_error bad = Some err.
Proof.
  split.
  - revert m. induction lines as [|line lines IH]; intros m Hscan; [discriminate Hscan|].
    destruct (record_error line) as [e|] eqn:Hline.
    + rewrite (scanLines_step_error line lines m e Hline) in Hscan.
      injection Hscan as ->. exists [], line, lines.
      split; [reflexivity|]. split; [constructor|exact Hline].
    + destruct (scanLines_step_ok line lines m Hline) as [m' Hstep].
      rewrite Hstep in Hscan.
      destruct (IH _ Hscan) as (good & bad & rest & -> & Hgood & Hbad).
      exists (line :: good), bad, rest.
      split; [reflexivity|]. split; [constructor; assumption|exact Hbad].
  - intros (good & bad & rest & -> & Hgood & Hbad). revert m.
    induction Hgood as [|line good Hline Hgood IH]; intros m.
    + apply scanLines_step_error. exact Hbad.
    + rewrite <- app_comm_cons.
      destruct (scanLines_step_ok line (good ++ bad :: rest) m Hline) as [m' ->].
      apply IH.
Qed.

(** X1.  [ParseSSHKeyScan] returns a callback exactly when every line of
    the input is empty or a record of three fields whose third field
    decodes. *)
Theorem ParseSSHKeyScan_accepts_iff (knownHosts : list ascii) :
  (exists cb, ParseSSHKeyScan knownHosts = inr cb) <->
  (forall line,
      line ∈ strings.Split (string_of_list_ascii knownHosts) "010" ->
      line = "" \/ well_formed_record line).
Proof.
  unfold ParseSSHKeyScan.
  set (lines := strings.Split (string_of_list_ascii knownHosts) "010").
  split.
  - intros [cb Hcb] line Hin. apply record_error_None.
    destruct (record_error line) as [e|] eqn:Hline; [|reflexivity].
    exfalso. apply list_elem_of_split in Hin as (l1 & l2 & Hsplit).
    rewrite Hsplit, scanLines_app in Hcb.
    destruct (scanLines l1 ∅) as [e'|m1]; [discriminate Hcb|].
    rewrite (scanLines_step_error line l2 m1 e Hline) in Hcb. discriminate Hcb.
  - intros Hall.
    destruct (scanLines_all_ok lines ∅) as [m Hm].
    + apply Forall_forall. intros line Hin. apply record_error_None, Hall, Hin.
    + rewrite Hm. eexists. reflexivity.
Qed.

(** X2.  The error of [ParseSSHKeyScan] is the error of the first line that
    is no record: the lines before it are empty or well formed, the lines
    after it are not looked at, and a field-count error quotes the count and
    the line. *)
Theorem ParseSSHKeyScan_first_error (knownHosts : list ascii) (err : error) :
  ParseSSHKeyScan knownHosts = inl err <->
  exists good bad rest,
    strings.Split (string_of_list_ascii knownHosts) "010" = good ++ bad :: rest /\
    Forall (fun line => line = "" \/ well_formed_record line) good /\
    record_error bad = Some err.
Proof.
  unfold ParseSSHKeyScan.
  set (lines := strings.Split (string_of_list_ascii knownHosts) "010").
  assert (Hiff : forall good,
             Forall (fun line => record_error line = None) good <->
             Forall (fun line => line = "" \/ well_formed_record line) good).
  { intros good. apply Forall_iff. intros line. apply record_error_None. }
  split.
  - destruct (scanLines lines ∅) as [e|m] eqn:Hscan; [|discriminate].
    intros [= ->]. apply scanLines_first_error in Hscan
      as (good & bad & rest & Hl & Hgood & Hbad).
    exists good, bad, rest. split; [exact Hl|]. split; [apply Hiff; exact Hgood|exact Hbad].
  - intros (good & bad & rest & Hl & Hgood & Hbad).
    assert (Hscan : scanLines lines ∅ = inl err).
    { apply scanLines_first_error. exists good, bad, rest.
      split; [exact Hl|]. split; [apply Hiff; exact Hgood|exact Hbad]. }
    rewrite Hscan. reflexivity.
Qed.

(** X1 on a record followed by a newline. *)
Lemma ParseSSHKeyScan_accepts_iff_witness :
  exists cb,
    ParseSSHKeyScan (list_ascii_of_string ("example 1 QUJD" +:+ newline)) = inr cb.
Proof.
  apply (proj2 (ParseSSHKeyScan_accepts_iff
                  (list_ascii_of_string ("example 1 QUJD" +:+ newline)))).
  intros line Hin. vm_compute in Hin.
  apply elem_of_cons in Hin as [->|Hin].
  - right. exists "example", "1", "QUJD". split; reflexivity.
  - apply elem_of_cons in Hin as [->|Hin]; [left; reflexivity|inversion Hin].
Defined.

(** X2 on a record followed by the two-field line [example 1] and one more
    line: the error counts two fields and quotes the line. *)
Lemma ParseSSHKeyScan_first_error_witness :
  ParseSSHKeyScan
    (list_ascii_of_string
       ("example 1 QUJD" +:+ newline +:+ "example 1" +:+ newline +:+ "x"))
  = inl (Errorf "bad split ssh identity string length: want 3, have 2 ('example 1')").
Proof.
  apply (proj2 (ParseSSHKeyScan_first_error _ _)).
  exists ["example 1 QUJD"], "example 1", ["x"].
  split; [vm_compute; reflexivity|]. split; [|vm_compute; reflexivity].
  constructor; [|constructor].
  right. exists "example", "1", "QUJD". split; reflexivity.
Defined.

(** ** [ParseSSHKeyScan]: the verdicts of the callback *)

(** X3.  A key whose type is the second field of no line of an accepted
    input is refused with the error [unknown key type], which quotes the
    type; in particular the callback of an input without records refuses
    every key. *)
Theorem callback_unknown_type (knownHosts : list ascii) (cb : HostKeyCallback)
    (hostname : string) (remote : Addr) (key : PublicKey) :
  ParseSSHKeyScan knownHosts = inr cb ->
  (forall line host key64,
      line ∈ strings.Split (string_of_list_ascii knownHosts) "010" ->
      strings.Split line " " <> [host; KeyType key; key64]) ->
  cb hostname remote key = Some (Errorf ("unknown key type '" +:+ KeyType key +:+ "'")).
Proof.
  intros Hparse Hno. unfold ParseSSHKeyScan in Hparse.
  destruct (scanLines _ ∅) as [err|m] eqn:Hscan; [discriminate Hparse|].
  injection Hparse as <-. unfold hostKeyCallback.
  rewrite (scanLines_other_types _ _ _ _ Hno Hscan), lookup_empty. reflexivity.
Qed.

(** X3 on the empty input and an RSA key. *)
Lemma callback_unknown_type_witness :
  hostKeyCallback ∅ "localhost" {| Network := "tcp"; AddrString := "127.0.0.1:22" |}
    {| KeyType := "ssh-rsa"; Marshal := list_ascii_of_string "ABC" |}
  = Some (Errorf "unknown key type 'ssh-rsa'").
Proof.
  apply (callback_unknown_type []).
  - vm_compute. reflexivity.
  - intros line host key64 Hin. vm_compute in Hin.
    apply elem_of_cons in Hin as [->|Hin]; [discriminate|inversion Hin].
Defined.

(** X4.  When the last record of a key's type in an accepted input decodes
    to other bytes than the key's, the key is refused with the error
    [public key mismatch], whatever earlier records of the type hold. *)
Theorem callback_mismatch (knownHosts : list ascii) (cb : HostKeyCallback)
    (before after : list string) (line host key64 : string)
    (hostname : string) (remote : Addr) (key : PublicKey) :
  ParseSSHKeyScan knownHosts = inr cb ->
  strings.Split (string_of_list_ascii knownHosts) "010" = before ++ line :: after ->
  strings.Split line " " = [host; KeyType key; key64] ->
  (forall l h k, l ∈ after -> strings.Split l " " <> [h; KeyType key; k]) ->
  Marshal key <> fst (base64.DecodeString key64) ->
  cb hostname remote key = Some (Errorf "public key mismatch").
Proof.
  intros Hparse Hlines Hsplit Hlast Hne.
  unfold ParseSSHKeyScan in Hparse. rewrite Hlines, scanLines_app in Hparse.
  destruct (scanLines before ∅) as [err|m1]; [discriminate Hparse|].
  destruct (scanLines (line :: after) m1) as [err|m] eqn:Hscan; [discriminate Hparse|].
  injection Hparse as <-.
  destruct (base64.DecodeString key64) as [b [err|]] eqn:Hdec.
  - simpl in Hscan. destruct (Nat.eqb (String.length line) 0) eqn:Hlen.
    + apply length_0_empty in Hlen. subst line. discriminate Hsplit.
    + rewrite Hsplit, Hdec in Hscan. discriminate Hscan.
  - rewrite (scanLines_record _ _ _ _ _ _ _ Hsplit Hdec) in Hscan.
    unfold hostKeyCallback, bytes.Equal.
    rewrite (scanLines_other_types _ _ _ _ Hlast Hscan), lookup_insert_eq.
    rewrite bool_decide_eq_false_2 by exact Hne. reflexivity.
Qed.

(** X4 on two records of type [1]: the bytes [ABC] of the first record are
    refused, because the second record holds [ABD]. *)
Lemma callback_mismatch_witness :
  hostKeyCallback (<["1" := list_ascii_of_string "ABD"]> ∅)
    "localhost" {| Network := "tcp"; AddrString := "127.0.0.1:22" |}
    {| KeyType := "1"; Marshal := list_ascii_of_string "ABC" |}
  = Some (Errorf "public key mismatch").
Proof.
  apply (callback_mismatch
           (list_ascii_of_string ("h 1 QUJD" +:+ newline +:+ "h 1 QUJE"))
           _ ["h 1 QUJD"] [] "h 1 QUJE" "h" "QUJE").
  - vm_compute. reflexivity.
  - vm_compute. reflexivity.
  - reflexivity.
  - intros l h k Hin. inversion Hin.
  - vm_compute. discriminate.
Defined.

(** X5.  The host field of a record is never consulted: replacing a line by
    a line with the same key type and the same third field, and any host,
    changes neither the outcome of the parse nor a verdict of the
    callback. *)
Theorem host_field_ignored (knownHosts1 knownHosts2 : list ascii)
    (before after : list string) (line1 line2 host1 host2 keyType key64 : string) :
  strings.Split (string_of_list_ascii knownHosts1) "010" = before ++ line1 :: after ->
  strings.Split (string_of_list_ascii knownHosts2) "010" = before ++ line2 :: after ->
  strings.Split line1 " " = [host1; keyType; key64] ->
  strings.Split line2 " " = [host2; keyType; key64] ->
  ParseSSHKeyScan knownHosts1 = ParseSSHKeyScan knownHosts2.
Proof.
  intros Hl1 Hl2 Hs1 Hs2. unfold ParseSSHKeyScan.
  rewrite Hl1, Hl2, !scanLines_app.
  destruct (scanLines before ∅) as [err|m]; [reflexivity|].
  assert (Hsame : scanLines (line1 :: after) m = scanLines (line2 :: after) m).
  { cbn [scanLines].
    destruct (Nat.eqb (String.length line1) 0) eqn:H1.
    { apply length_0_empty in H1. subst line1. discriminate Hs1. }
    destruct (Nat.eqb (String.length line2) 0) eqn:H2.
    { apply length_0_empty in H2. subst line2. discriminate Hs2. }
    rewrite Hs1, Hs2. reflexivity. }
  rewrite Hsame. reflexivity.
Qed.

(** X5 on the same key recorded for two host names. *)
Lemma host_field_ignored_witness :
  ParseSSHKeyScan (list_ascii_of_string "localhost ssh-rsa QUJD")
  = ParseSSHKeyScan (list_ascii_of_string "evil.example ssh-rsa QUJD").
Proof.
  apply (host_field_ignored _ _ [] [] "localhost ssh-rsa QUJD" "evil.example ssh-rsa QUJD"
           "localhost" "evil.example" "ssh-rsa" "QUJD"); reflexivity.
Defined.

(** ** [scanSSHIdentity]: every way out of the read loop *)

(** Chunks without sentinel: the key-scan lines among them are gathered and
    the loop goes on. *)
Lemma scanSSHIdentity_loop_gathers (chunks : list (list ascii)) (cases : list selected)
    (ret : list ascii) :
  Forall (fun chunk => ~ sentinel chunk) chunks ->
  scanSSHIdentity_loop (map SerialData chunks ++ cases) ret
  = scanSSHIdentity_loop cases (ret ++ concat (filter delimited chunks)).
Proof.
  intros Hno. revert ret. induction Hno as [|chunk chunks Hchunk Hno IH]; intros ret.
  - simpl. rewrite app_nil_r. reflexivity.
  - simpl map. rewrite <- app_comm_cons. cbn [scanSSHIdentity_loop].
    unfold sentinel in Hchunk. apply not_true_is_false in Hchunk. rewrite Hchunk.
    rewrite filter_cons.
    destruct (decide (delimited chunk)) as [Hd|Hd]; unfold delimited in Hd.
    + destruct chunk as [|c chunk]; [discriminate Hd|].
      injection Hd as ->. cbn [length Nat.eqb lookup list_lookup Ascii.eqb Bool.eqb].
      rewrite IH, <- app_assoc. reflexivity.
    + destruct chunk as [|c chunk]; [apply IH|].
      cbn [length Nat.eqb lookup list_lookup].
      destruct (Ascii.eqb c "|") eqn:Hc; [|apply IH].
      apply Ascii.eqb_eq in Hc. subst c. contradiction Hd. reflexivity.
Qed.

Lemma sentinel_prefix (rest : list ascii) :
  bytes.HasPrefix (statusPrefix ++ rest) statusPrefix = true.
Proof. apply HasPrefix_true. exists rest. reflexivity. Qed.

(** X6.  After the key-scan command is written and any chunks without
    sentinel have come, a sentinel without status byte makes
    [scanSSHIdentity] fail with the error [status code did not show up], and
    a sentinel with a status byte other than [0] makes it fail with an error
    that quotes the status; in both cases the key-scan lines gathered so far
    are not returned. *)
Theorem scanSSHIdentity_failed_status (vi : Instance) (chunks : list (list ascii))
    (later : list selected) :
  writeSerial vi (list_ascii_of_string keyscanCmd) = None ->
  Forall (fun chunk => ~ sentinel chunk) chunks ->
  (serial vi = map SerialData chunks ++ SerialData statusPrefix :: later ->
   scanSSHIdentity vi = Fails (Errorf "keyscan command status code did not show up"))
  /\ (forall c rest,
         c <> "0"%char ->
         serial vi = map SerialData chunks ++ SerialData (statusPrefix ++ c :: rest) :: later ->
         scanSSHIdentity vi
         = Fails (Errorf ("non-zero keyscan command status code: '"
                          +:+ string_of_rune c +:+ "'"))).
Proof.
  intros Hwrite Hno. unfold scanSSHIdentity. rewrite Hwrite. split.
  - intros ->. rewrite (scanSSHIdentity_loop_gathers _ _ _ Hno). reflexivity.
  - intros c rest Hc ->. rewrite (scanSSHIdentity_loop_gathers _ _ _ Hno).
    cbn [scanSSHIdentity_loop].
    replace (Nat.eqb (length (statusPrefix ++ c :: rest)) 0) with false by reflexivity.
    rewrite sentinel_prefix, status_byte.
    replace (Nat.eqb (length (statusPrefix ++ c :: rest)) (length statusPrefix))
      with false.
    + cbn [lookup list_lookup]. apply Ascii.eqb_neq in Hc. rewrite Hc. reflexivity.
    + symmetry. apply Nat.eqb_neq. rewrite length_app. simpl. lia.
Qed.

(** X7.  After the command is written and any chunks without sentinel have
    come, a cancellation that the select takes ends [scanSSHIdentity] with
    the context's own error, and the timer ends it with the time-out error;
    the chunks that come later are not read. *)
Theorem scanSSHIdentity_interrupted (vi : Instance) (chunks : list (list ascii))
    (later : list selected) :
  writeSerial vi (list_ascii_of_string keyscanCmd) = None ->
  Forall (fun chunk => ~ sentinel chunk) chunks ->
  (forall err,
      serial vi = map SerialData chunks ++ CtxDone err :: later ->
      scanSSHIdentity vi = Fails err)
  /\ (serial vi = map SerialData chunks ++ DeadlinePassed :: later ->
      scanSSHIdentity vi = Fails (Errorf "keyscan command timed out")).
Proof.
  intros Hwrite Hno. unfold scanSSHIdentity. rewrite Hwrite. split.
  - intros err ->. rewrite (scanSSHIdentity_loop_gathers _ _ _ Hno). reflexivity.
  - intros ->. rewrite (scanSSHIdentity_loop_gathers _ _ _ Hno). reflexivity.
Qed.

Lemma scanSSHIdentity_loop_waits (cases : list selected) (ret : list ascii) :
  scanSSHIdentity_loop cases ret = Waits <->
  exists chunks,
    cases = map SerialData chunks /\ Forall (fun chunk => ~ sentinel chunk) chunks.
Proof.
  split.
  - revert ret. induction cases as [|[err| |data] cases IH]; intros ret Hloop;
      try discriminate Hloop.
    + exists []. split; [reflexivity|constructor].
    + cbn [scanSSHIdentity_loop] in Hloop.
      assert (Hrec : ~ sentinel data /\ exists ret', scanSSHIdentity_loop cases ret' = Waits).
      { unfold sentinel. destruct data as [|c data].
        - split; [discriminate|]. exists ret. exact Hloop.
        - change (Nat.eqb (length (c :: data)) 0) with false in Hloop. cbv iota in Hloop.
          destruct (bytes.HasPrefix (c :: data) statusPrefix) eqn:Hpre.
          + exfalso.
            destruct (Nat.eqb (length (c :: data)) (length statusPrefix)) eqn:Hlen;
              [discriminate Hloop|].
            destruct (status_byte_present _ Hpre Hlen) as [b Hb]. rewrite Hb in Hloop.
            destruct (negb (Ascii.eqb b "0")); discriminate Hloop.
          + split; [discriminate|].
            cbn [lookup list_lookup] in Hloop.
            destruct (Ascii.eqb c "|"); eexists; exact Hloop. }
      destruct Hrec as [Hns [ret' Hrec]].
      destruct (IH _ Hrec) as (chunks & -> & Hno).
      exists (data :: chunks). split; [reflexivity|constructor; assumption].
  - intros (chunks & -> & Hno).
    rewrite <- (app_nil_r (map SerialData chunks)).
    rewrite (scanSSHIdentity_loop_gathers _ _ _ Hno). reflexivity.
Qed.

(** X8.  Once the command is written, [scanSSHIdentity] is still waiting
    exactly when all that the selects have taken so far are chunks without
    sentinel: no such chunk, however it looks, completes the exchange, and
    nothing else keeps it open. *)
Theorem scanSSHIdentity_waits_iff (vi : Instance) :
  writeSerial vi (list_ascii_of_string keyscanCmd) = None ->
  (scanSSHIdentity vi = Waits <->
   exists chunks,
     serial vi = map SerialData chunks /\ Forall (fun chunk => ~ sentinel chunk) chunks).
Proof.
  intros Hwrite. unfold scanSSHIdentity. rewrite Hwrite.
  apply scanSSHIdentity_loop_waits.
Qed.

Lemma sample_chunks_no_sentinel : Forall (fun chunk => ~ sentinel chunk) sample_chunks.
Proof. repeat constructor; unfold sentinel; vm_compute; discriminate. Qed.

(** X6 on the sample console followed by a sentinel without status, and by
    the status [1]. *)
Lemma scanSSHIdentity_failed_status_witness :
  scanSSHIdentity
    (sample_instance_with (map SerialData sample_chunks ++ [SerialData statusPrefix]))
  = Fails (Errorf "keyscan command status code did not show up")
  /\ scanSSHIdentity
       (sample_instance_with
          (map SerialData sample_chunks
           ++ [SerialData (list_ascii_of_string "SERIAL STATUS: 1")]))
     = Fails (Errorf "non-zero keyscan command status code: '1'").
Proof.
  split.
  - apply (proj1 (scanSSHIdentity_failed_status
                    (sample_instance_with
                       (map SerialData sample_chunks ++ [SerialData statusPrefix]))
                    sample_chunks [] eq_refl sample_chunks_no_sentinel)).
    reflexivity.
  - apply (proj2 (scanSSHIdentity_failed_status
                    (sample_instance_with
                       (map SerialData sample_chunks
                        ++ [SerialData (list_ascii_of_string "SERIAL STATUS: 1")]))
                    sample_chunks [] eq_refl sample_chunks_no_sentinel) "1"%char []).
    + discriminate.
    + reflexivity.
Defined.

(** X7 on the sample console followed by a cancellation, and by the timer,
    each with the success sentinel behind it. *)
Lemma scanSSHIdentity_interrupted_witness :
  scanSSHIdentity
    (sample_instance_with
       (map SerialData sample_chunks
        ++ [CtxDone Canceled; SerialData (list_ascii_of_string "SERIAL STATUS: 0")]))
  = Fails Canceled
  /\ scanSSHIdentity
       (sample_instance_with
          (map SerialData sample_chunks
           ++ [DeadlinePassed; SerialData (list_ascii_of_string "SERIAL STATUS: 0")]))
     = Fails (Errorf "keyscan command timed out").
Proof.
  split.
  - apply (proj1 (scanSSHIdentity_interrupted
                    (sample_instance_with
                       (map SerialData sample_chunks
                        ++ [CtxDone Canceled;
                            SerialData (list_ascii_of_string "SERIAL STATUS: 0")]))
                    sample_chunks
                    [SerialData (list_ascii_of_string "SERIAL STATUS: 0")]
                    eq_refl sample_chunks_no_sentinel) Canceled).
    reflexivity.
  - apply (proj2 (scanSSHIdentity_interrupted
                    (sample_instance_with
                       (map SerialData sample_chunks
                        ++ [DeadlinePassed;
                            SerialData (list_ascii_of_string "SERIAL STATUS: 0")]))
                    sample_chunks
                    [SerialData (list_ascii_of_string "SERIAL STATUS: 0")]
                    eq_refl sample_chunks_no_sentinel)).
    reflexivity.
Defined.

(** X8 on the sample console with no sentinel yet. *)
Lemma scanSSHIdentity_waits_iff_witness :
  scanSSHIdentity (sample_instance_with (map SerialData sample_chunks)) = Waits.
Proof.
  apply (proj2 (scanSSHIdentity_waits_iff
                  (sample_instance_with (map SerialData sample_chunks)) eq_refl)).
  exists sample_chunks. split; [reflexivity|exact sample_chunks_no_sentinel].
Defined.

(** ** [sshSetup]: from the key to the signer *)

Section BootstrapExchange.

Variables Signer PrivateKey : Type.
Variable rsa_GenerateKey : nat -> error + PrivateKey.
Variable ssh_NewSignerFromKey : PrivateKey -> error + Signer.
Variable ssh_MarshalAuthorizedKey : Signer -> list ascii.
Variable shellescape_Quote : string -> string.
Variable getLogErrMsg : string -> string.

Lemma sshSetup_loop_returns (sshSigner returned : Signer) (cases : list selected)
    (log : list ascii) :
  sshSetup_loop Signer getLogErrMsg sshSigner cases log = Returns returned <->
  returned = sshSigner /\
  exists chunks status later,
    cases = map SerialData chunks
            ++ SerialData (statusPrefix ++ "0"%char :: status) :: later /\
    Forall (fun chunk => ~ sentinel chunk) chunks.
Proof.
  split.
  - revert log. induction cases as [|[err| |data] cases IH]; intros log Hloop;
      try discriminate Hloop.
    cbn [sshSetup_loop] in Hloop.
    destruct (bytes.HasPrefix data statusPrefix) eqn:Hpre.
    + destruct (Nat.eqb (length data) (length statusPrefix)) eqn:Hlen;
        [discriminate Hloop|].
      apply HasPrefix_true in Hpre as [rest ->]. rewrite status_byte in Hloop.
      destruct rest as [|c status]; [discriminate Hloop|].
      cbn [lookup list_lookup] in Hloop.
      destruct (Ascii.eqb c "0") eqn:Hc; [|discriminate Hloop].
      apply Ascii.eqb_eq in Hc. subst c. injection Hloop as <-.
      split; [reflexivity|]. exists [], status, cases. split; [reflexivity|constructor].
    + destruct (IH _ Hloop) as (-> & chunks & status & later & -> & Hno).
      split; [reflexivity|]. exists (data :: chunks), status, later.
      split; [reflexivity|]. constructor; [|exact Hno].
      unfold sentinel. rewrite Hpre. discriminate.
  - intros (-> & chunks & status & later & -> & Hno).
    rewrite (sshSetup_loop_logs Signer getLogErrMsg _ _ _ _ Hno).
    apply sshSetup_loop_status_zero.
Qed.

(** X9.  [sshSetup] returns a signer exactly when a 4096-bit key was
    generated, the signer was made from that key, the device took the setup
    command that installs the public key of that very signer, and the console
    then gave chunks without sentinel followed by a sentinel with the status
    [0]. *)
Theorem sshSetup_returns_iff (vi : Instance) (returned : Signer) :
  sshSetup Signer PrivateKey rsa_GenerateKey ssh_NewSignerFromKey
    ssh_MarshalAuthorizedKey shellescape_Quote getLogErrMsg vi = Returns returned <->
  exists privateKey,
    rsa_GenerateKey 4096 = inr privateKey /\
    ssh_NewSignerFromKey privateKey = inr returned /\
    writeSerial vi
      (list_ascii_of_string
         (setupCmd shellescape_Quote (ssh_MarshalAuthorizedKey returned))) = None /\
    exists chunks status later,
      serial vi = map SerialData chunks
                  ++ SerialData (statusPrefix ++ "0"%char :: status) :: later /\
      Forall (fun chunk => ~ sentinel chunk) chunks.
Proof.
  unfold sshSetup, generateSSHKey. split.
  - destruct (rsa_GenerateKey 4096) as [e|privateKey] eqn:Hgen; [discriminate|].
    destruct (ssh_NewSignerFromKey privateKey) as [e|signer] eqn:Hsig; [discriminate|].
    destruct (writeSerial vi _) as [e|] eqn:Hwrite; [discriminate|].
    intros Hloop. apply sshSetup_loop_returns in Hloop as [-> Hcases].
    exists privateKey. split; [reflexivity|]. split; [exact Hsig|].
    split; [exact Hwrite|exact Hcases].
  - intros (privateKey & -> & -> & -> & Hcases).
    apply sshSetup_loop_returns. split; [reflexivity|exact Hcases].
Qed.

(** X10.  Once the key is generated and the setup command written, and after
    any chunks without sentinel: the timer ends [sshSetup] with a time-out
    error over the log of those chunks, joined in arrival order; a sentinel
    with a status other than [0] ends it with an error that quotes the status
    and is over the log of those chunks and of the sentinel chunk itself; and
    a cancellation ends it with the context's own error and no log. *)
Theorem sshSetup_failure_log (vi : Instance) (sshSigner : Signer)
    (sshPublicKey : list ascii) (chunks : list (list ascii)) (later : list selected) :
  generateSSHKey Signer PrivateKey rsa_GenerateKey ssh_NewSignerFromKey
    ssh_MarshalAuthorizedKey = inr (sshSigner, sshPublicKey) ->
  writeSerial vi (list_ascii_of_string (setupCmd shellescape_Quote sshPublicKey)) = None ->
  Forall (fun chunk => ~ sentinel chunk) chunks ->
  (serial vi = map SerialData chunks ++ DeadlinePassed :: later ->
   sshSetup Signer PrivateKey rsa_GenerateKey ssh_NewSignerFromKey
     ssh_MarshalAuthorizedKey shellescape_Quote getLogErrMsg vi
   = Fails (Errorf ("setup command timed out "
                    +:+ getLogErrMsg (string_of_list_ascii (concat chunks)))))
  /\ (forall c rest,
         c <> "0"%char ->
         serial vi = map SerialData chunks ++ SerialData (statusPrefix ++ c :: rest) :: later ->
         sshSetup Signer PrivateKey rsa_GenerateKey ssh_NewSignerFromKey
           ssh_MarshalAuthorizedKey shellescape_Quote getLogErrMsg vi
         = Fails (Errorf ("non-zero setup command status code: '" +:+ string_of_rune c
                          +:+ "' "
                          +:+ getLogErrMsg
                                (string_of_list_ascii
                                   (concat chunks ++ statusPrefix ++ c :: rest)))))
  /\ (forall err,
         serial vi = map SerialData chunks ++ CtxDone err :: later ->
         sshSetup Signer PrivateKey rsa_GenerateKey ssh_NewSignerFromKey
           ssh_MarshalAuthorizedKey shellescape_Quote getLogErrMsg vi
         = Fails err).
Proof.
  intros Hkey Hwrite Hno. unfold sshSetup. rewrite Hkey, Hwrite.
  split; [|split].
  - intros ->. rewrite (sshSetup_loop_logs Signer getLogErrMsg _ _ _ _ Hno).
    reflexivity.
  - intros c rest Hc ->. rewrite (sshSetup_loop_logs Signer getLogErrMsg _ _ _ _ Hno).
    apply (sshSetup_loop_status_other Signer getLogErrMsg _ _ _ _ _ Hc).
  - intros err ->. rewrite (sshSetup_loop_logs Signer getLogErrMsg _ _ _ _ Hno).
    reflexivity.
Qed.

(** X11.  Neither exchange ever indexes a chunk out of range: whatever the
    console delivers, and in whatever order the selects take their cases,
    [scanSSHIdentity] and [sshSetup] do not panic. *)
Theorem exchanges_never_panic (vi : Instance) :
  scanSSHIdentity vi <> Panics
  /\ sshSetup Signer PrivateKey rsa_GenerateKey ssh_NewSignerFromKey
       ssh_MarshalAuthorizedKey shellescape_Quote getLogErrMsg vi <> Panics.
Proof.
  split.
  - unfold scanSSHIdentity. destruct (writeSerial vi _); [discriminate|].
    apply scanSSHIdentity_loop_no_panic.
  - unfold sshSetup.
    destruct generateSSHKey as [e|[sshSigner sshPublicKey]]; [discriminate|].
    destruct (writeSerial vi _); [discriminate|].
    apply sshSetup_loop_no_panic.
Qed.

End BootstrapExchange.

(** X9 on the sample console: the signer returned is the one made from the
    generated key. *)
Lemma sshSetup_returns_iff_witness :
  sshSetup nat nat sample_generate sample_signer sample_marshal sample_quote
    sample_log_msg sample_instance
  = Returns 4096.
Proof.
  apply (proj2 (sshSetup_returns_iff nat nat sample_generate sample_signer
                  sample_marshal sample_quote sample_log_msg sample_instance 4096)).
  exists 4096. split; [reflexivity|]. split; [reflexivity|]. split; [reflexivity|].
  exists sample_chunks, [], []. split; [reflexivity|exact sample_chunks_no_sentinel].
Defined.

(** X10 on a console that prints two lines and then the status [1], and on
    one that prints them and then nothing until the timer. *)
Lemma sshSetup_failure_log_witness :
  sshSetup nat nat sample_generate sample_signer sample_marshal sample_quote
    sample_log_msg
    (sample_instance_with
       [ SerialData (list_ascii_of_string "udhcpc: started;");
         SerialData (list_ascii_of_string "udhcpc: no lease;");
         DeadlinePassed ])
  = Fails (Errorf "setup command timed out (log: 'udhcpc: started;udhcpc: no lease;')")
  /\ sshSetup nat nat sample_generate sample_signer sample_marshal sample_quote
       sample_log_msg
       (sample_instance_with
          [ SerialData (list_ascii_of_string "udhcpc: started;");
            SerialData (list_ascii_of_string "udhcpc: no lease;");
            SerialData (list_ascii_of_string "SERIAL STATUS: 1") ])
     = Fails (Errorf ("non-zero setup command status code: '1' "
                      +:+ "(log: 'udhcpc: started;udhcpc: no lease;SERIAL STATUS: 1')")).
Proof.
  assert (Hno : Forall (fun chunk => ~ sentinel chunk)
                  [ list_ascii_of_string "udhcpc: started;";
                    list_ascii_of_string "udhcpc: no lease;" ]).
  { repeat constructor; unfold sentinel; vm_compute; discriminate. }
  split.
  - apply (proj1 (sshSetup_failure_log nat nat sample_generate sample_signer
                    sample_marshal sample_quote sample_log_msg
                    (sample_instance_with _) 4096 _ _ [] eq_refl eq_refl Hno)).
    reflexivity.
  - apply (proj1 (proj2 (sshSetup_failure_log nat nat sample_generate sample_signer
                           sample_marshal sample_quote sample_log_msg
                           (sample_instance_with _) 4096 _ _ [] eq_refl eq_refl Hno))
             "1"%char []).
    + discriminate.
    + reflexivity.
Defined.

(** ** [NewKeyValueArg]: which error, and what it leaves alone *)

Section KeyValueErrors.

Import qemucli.

Variable validateArgKey : string -> ArgAcceptedValue -> option error.
Variable validateArgStrValue : string -> option error.

Lemma item_error_None (it : KeyValueArgItem) :
  item_error validateArgStrValue it = None <-> accepted validateArgStrValue it.
Proof.
  unfold item_error, accepted.
  destruct (Nat.eqb (String.length (Key it)) 0) eqn:Hk.
  { apply length_0_empty in Hk. split; [discriminate|]. intros (H & _). contradiction. }
  destruct (Nat.eqb (String.length (Value it)) 0) eqn:Hv.
  { apply length_0_empty in Hv. split; [discriminate|]. intros (_ & H & _). contradiction. }
  assert (Hkn : Key it <> "").
  { intros E. apply length_0_empty in E. rewrite E in Hk. discriminate Hk. }
  assert (Hvn : Value it <> "").
  { intros E. apply length_0_empty in E. rewrite E in Hv. discriminate Hv. }
  destruct (validateArgStrValue (Key it)) as [e|].
  { split; [discriminate|]. intros (_ & _ & H & _). discriminate H. }
  destruct (validateArgStrValue (Value it)) as [e|].
  { split; [discriminate|]. intros (_ & _ & _ & H). discriminate H. }
  split; [intros _|reflexivity]. repeat split; assumption.
Qed.

Lemma copyItems_stops (a : KeyValueArg) (s : Slice) (k : nat) (idx : list nat)
    (h : store) (it : KeyValueArgItem) (err : error) :
  index s k h = Some it -> item_error validateArgStrValue it = Some err ->
  copyItems validateArgStrValue a s (k :: idx) h = Some (Some err, h).
Proof.
  intros Hget. unfold item_error. cbn [copyItems]. rewrite Hget.
  destruct (Nat.eqb (String.length (Key it)) 0); [intros [= <-]; reflexivity|].
  destruct (Nat.eqb (String.length (Value it)) 0); [intros [= <-]; reflexivity|].
  destruct (validateArgStrValue (Key it)) as [e|]; [intros [= <-]; reflexivity|].
  destruct (validateArgStrValue (Value it)) as [e|]; [intros [= <-]; reflexivity|].
  discriminate.
Qed.

Lemma drop_cons_inv {A : Type} (l : list A) (k : nat) (x : A) (r : list A) :
  drop k l = x :: r -> l !! k = Some x /\ drop (S k) l = r.
Proof.
  intros Hdrop.
  assert (Hx : l !! k = Some x).
  { rewrite <- (Nat.add_0_r k), <- lookup_drop, Hdrop. reflexivity. }
  split; [exact Hx|]. rewrite (drop_S _ _ _ Hx) in Hdrop. injection Hdrop as ->.
  reflexivity.
Qed.

Lemma copyItems_first_error (ky : string) (l : loc) (s : Slice)
    (src : list KeyValueArgItem) (good : list KeyValueArgItem)
    (bad : KeyValueArgItem) (rest : list KeyValueArgItem) (err : error) :
  arr s <> l -> off s + len s <= length src ->
  Forall (accepted validateArgStrValue) good ->
  item_error validateArgStrValue bad = Some err ->
  forall (todo k : nat) (h : store) (own_arr : list KeyValueArgItem),
    k + todo = len s ->
    h !! arr s = Some src -> h !! l = Some own_arr -> length own_arr = len s ->
    drop k (take (len s) (drop (off s) src)) = good ++ bad :: rest ->
    exists h',
      copyItems validateArgStrValue
        {| key := ky; items := {| arr := l; off := 0; len := len s |} |}
        s (seq k todo) h
      = Some (Some err, h').
Proof.
  intros Hfresh Hbound Hgood Hbad.
  induction Hgood as [|g good Hg Hgood IH];
    intros todo k h own_arr Hk Hsrc Hown Hlen Hdrop.
  - apply drop_cons_inv in Hdrop as [Hit _].
    assert (Hlt : k < len s).
    { apply lookup_lt_Some in Hit. rewrite length_take, length_drop in Hit. lia. }
    destruct todo as [|todo]; [lia|]. cbn [seq].
    destruct (its_lookup l s src Hfresh Hbound k Hlt) as (it & Hit' & Hsrck).
    rewrite Hit in Hit'. injection Hit' as <-.
    exists h. apply (copyItems_stops _ s k _ h bad err); [|exact Hbad].
    apply (index_its s src); [exact Hsrc|exact Hlt|exact Hsrck].
  - rewrite <- app_comm_cons in Hdrop. apply drop_cons_inv in Hdrop as [Hit Hdrop].
    assert (Hlt : k < len s).
    { apply lookup_lt_Some in Hit. rewrite length_take, length_drop in Hit. lia. }
    destruct todo as [|todo]; [lia|]. cbn [seq].
    destruct (its_lookup l s src Hfresh Hbound k Hlt) as (it & Hit' & Hsrck).
    rewrite Hit in Hit'. injection Hit' as <-.
    rewrite (copyItems_accepted validateArgStrValue _ s k _ h g).
    + cbn [items]. rewrite (assign_own l s src Hfresh Hbound k h own_arr g Hown Hlen Hlt).
      apply (IH todo (S k) _ (<[k := g]> own_arr)).
      * lia.
      * rewrite lookup_insert_ne by (intros E; apply Hfresh; symmetry; exact E).
        exact Hsrc.
      * apply lookup_insert_eq.
      * rewrite length_insert. exact Hlen.
      * exact Hdrop.
    + apply (index_its s src); [exact Hsrc|exact Hlt|exact Hsrck].
    + exact Hg.
Qed.

(** X12.  Which error [NewKeyValueArg] gives: a key that [validateArgKey]
    refuses gives that error, wrapped, whatever the items are; with an
    accepted key, the error is that of the first item that fails a check, the
    checks of an item being tried in the order empty key, empty value,
    characters of the key, characters of the value. *)
Theorem NewKeyValueArg_first_error (key : string) (s : Slice) (h : store) :
  valid_slice s h ->
  (forall err,
      validateArgKey key ArgAcceptedValueKeyValue = Some err ->
      fst (NewKeyValueArg validateArgKey validateArgStrValue key s h)
      = Fails (Wrap err "validate arg key"))
  /\ (forall good bad rest err,
         validateArgKey key ArgAcceptedValueKeyValue = None ->
         elems s h = good ++ bad :: rest ->
         Forall (accepted validateArgStrValue) good ->
         item_error validateArgStrValue bad = Some err ->
         fst (NewKeyValueArg validateArgKey validateArgStrValue key s h) = Fails err).
Proof.
  intros Hvalid. split.
  - intros err Hkey. apply NewKeyValueArg_bad_key. exact Hkey.
  - intros good bad rest err Hkey Helems Hgood Hbad.
    unfold NewKeyValueArg, make, ValueType. rewrite Hkey.
    destruct (valid_slice_cases s h Hvalid)
      as [[Hnil He]|(src & Hsrc & Hbound & Hfresh & He)]; rewrite He in Helems.
    { destruct good; discriminate Helems. }
    destruct (copyItems_first_error key (fresh (dom h)) s src good bad rest err
                Hfresh Hbound Hgood Hbad (len s) 0
                (<[fresh (dom h) := replicate (len s) zeroItem]> h)
                (replicate (len s) zeroItem)) as [h' Hcopy].
    + reflexivity.
    + rewrite lookup_insert_ne by (intros E; apply Hfresh; symmetry; exact E).
      exact Hsrc.
    + apply lookup_insert_eq.
    + apply length_replicate.
    + exact Helems.
    + rewrite Hcopy. reflexivity.
Qed.

Lemma copyItems_frame (a : KeyValueArg) (s : Slice) (idx : list nat) (h h' : store)
    (r : option error) (l' : loc) :
  copyItems validateArgStrValue a s idx h = Some (r, h') ->
  l' <> arr (items a) -> h' !! l' = h !! l'.
Proof.
  intros Hcopy Hne. revert h Hcopy.
  induction idx as [|i idx IH]; intros h Hcopy; cbn [copyItems] in Hcopy.
  - injection Hcopy as _ <-. reflexivity.
  - destruct (index s i h) as [it|]; [|discriminate Hcopy].
    destruct (Nat.eqb (String.length (Key it)) 0).
    { injection Hcopy as _ <-. reflexivity. }
    destruct (Nat.eqb (String.length (Value it)) 0).
    { injection Hcopy as _ <-. reflexivity. }
    destruct (validateArgStrValue (Key it)).
    { injection Hcopy as _ <-. reflexivity. }
    destruct (validateArgStrValue (Value it)).
    { injection Hcopy as _ <-. reflexivity. }
    destruct (assign (items a) i it h) as [h1|] eqn:Hassign; [|discriminate Hcopy].
    rewrite (IH _ Hcopy). unfold assign in Hassign.
    destruct (decide (i < len (items a))); [|discriminate Hassign].
    destruct (h !! arr (items a)) as [own_arr|]; [|discriminate Hassign].
    destruct (decide (off (items a) + i < length own_arr)); [|discriminate Hassign].
    injection Hassign as <-. apply lookup_insert_ne. intros E. apply Hne. symmetry. exact E.
Qed.

(** X13.  [NewKeyValueArg] never writes to an array that existed before the
    call, the caller's included: whether it returns an argument or an error,
    every array of the store before the call has the same content after
    it. *)
Theorem NewKeyValueArg_leaves_arrays (key : string) (s : Slice) (h : store) (l' : loc) :
  l' ∈ dom h ->
  snd (NewKeyValueArg validateArgKey validateArgStrValue key s h) !! l' = h !! l'.
Proof.
  intros Hin.
  assert (Hne : l' <> fresh (dom h)).
  { intros ->. exact (is_fresh (dom h) Hin). }
  unfold NewKeyValueArg, make, ValueType.
  destruct (validateArgKey key ArgAcceptedValueKeyValue) as [err|].
  { cbn [snd]. apply lookup_insert_ne. intros E. apply Hne. symmetry. exact E. }
  destruct (copyItems _ _ _ _ _) as [[[err|] h']|] eqn:Hcopy; cbn [snd].
  - rewrite (copyItems_frame _ _ _ _ _ _ l' Hcopy Hne).
    apply lookup_insert_ne. intros E. apply Hne. symmetry. exact E.
  - rewrite (copyItems_frame _ _ _ _ _ _ l' Hcopy Hne).
    apply lookup_insert_ne. intros E. apply Hne. symmetry. exact E.
  - apply lookup_insert_ne. intros E. apply Hne. symmetry. exact E.
Qed.

(** X14.  An empty or nil slice of items is accepted whenever the key is:
    the argument has no items and renders as the empty string. *)
Theorem NewKeyValueArg_no_items (key : string) (s : Slice) (h : store) :
  len s = 0 ->
  validateArgKey key ArgAcceptedValueKeyValue = None ->
  exists a h',
    NewKeyValueArg validateArgKey validateArgStrValue key s h = (Returns a, h') /\
    elems (items a) h' = [] /\
    StringValue a h' = ("", h').
Proof.
  intros Hnil Hkey.
  assert (Hvalid : valid_slice s h) by (left; exact Hnil).
  assert (He : elems s h = []).
  { destruct (valid_slice_cases s h Hvalid) as [[_ He]|(src & _ & _ & _ & He)];
      [exact He|]. rewrite He, Hnil. reflexivity. }
  exists (built key s h), (<[fresh (dom h) := elems s h]> h).
  assert (Hown : elems (items (built key s h)) (<[fresh (dom h) := elems s h]> h) = []).
  { rewrite (elems_built key s h _ Hvalid) by apply lookup_insert_eq. exact He. }
  split; [|split].
  - apply NewKeyValueArg_accepts; [exact Hvalid|exact Hkey|]. rewrite He. constructor.
  - exact Hown.
  - unfold StringValue. rewrite Hown. reflexivity.
Qed.

End KeyValueErrors.

(** X12 on the sample store: the first two items pass, the third has an
    empty value, and the error names its key. *)
Lemma NewKeyValueArg_first_error_witness :
  fst (qemucli.NewKeyValueArg sample_key_policy sample_policy "drive"
         sample_items3 sample_store)
  = Fails (Errorf "empty value for key 'readonly' is not allowed").
Proof.
  apply (proj2 (NewKeyValueArg_first_error sample_key_policy sample_policy "drive"
                  sample_items3 sample_store
                  (or_intror (ex_intro _ _ (conj eq_refl (le_n 3)))))
           [ {| qemucli.Key := "file"; qemucli.Value := "disk.img" |};
             {| qemucli.Key := "format"; qemucli.Value := "qcow2" |} ]
           {| qemucli.Key := "readonly"; qemucli.Value := "" |} []).
  - reflexivity.
  - vm_compute. reflexivity.
  - repeat constructor; try discriminate.
  - reflexivity.
Defined.

(** X13 on the sample store: the caller's array is as it was, although the
    call failed after two items were copied. *)
Lemma NewKeyValueArg_leaves_arrays_witness :
  snd (qemucli.NewKeyValueArg sample_key_policy sample_policy "drive"
         sample_items3 sample_store) !! 1%positive
  = sample_store !! 1%positive.
Proof.
  apply (NewKeyValueArg_leaves_arrays sample_key_policy sample_policy "drive"
           sample_items3 sample_store 1%positive).
  apply elem_of_dom. eexists. reflexivity.
Defined.

(** X14 on an empty slice that points nowhere. *)
Lemma NewKeyValueArg_no_items_witness :
  exists a h',
    qemucli.NewKeyValueArg sample_key_policy sample_policy "drive"
      sample_no_items sample_store = (Returns a, h') /\
    qemucli.elems (qemucli.items a) h' = [] /\
    qemucli.StringValue a h' = ("", h').
Proof.
  apply (NewKeyValueArg_no_items sample_key_policy sample_policy "drive"
           sample_no_items sample_store); reflexivity.
Defined.

(** ** [StringValue]: items with a blank key *)

Lemma writeItems_later_nonblank (its : list qemucli.KeyValueArgItem) (i : nat)
    (sb : string) :
  qemucli.writeItems its (S i) sb
  = match filter nonblank its with
    | [] => sb
    | _ :: _ => sb +:+ "," +:+ spec_join "," (map spec_item (filter nonblank its))
    end.
Proof.
  revert i sb. induction its as [|it its IH]; intros i sb; [reflexivity|].
  cbn [qemucli.writeItems]. rewrite filter_cons.
  destruct (decide (nonblank it)) as [Hk|Hk]; unfold nonblank in Hk.
  - destruct (String.eqb (qemucli.Key it) "") eqn:Ek.
    { apply String.eqb_eq in Ek. contradiction. }
    cbn [Nat.eqb negb]. rewrite item_written, IH.
    destruct (filter nonblank its) as [|it' its'].
    + simpl. apply string_app_assoc.
    + cbn [map spec_join]. rewrite !string_app_assoc. reflexivity.
  - destruct (String.eqb (qemucli.Key it) "") eqn:Ek.
    + apply IH.
    + exfalso. apply Hk. intros E. rewrite E in Ek. discriminate Ek.
Qed.

(** X15.  [StringValue] over any stored items, validated or not.  When the
    first item has a key, the items with a blank key are left out and the
    others are rendered and joined with commas.  When the first item has a
    blank key and an item with a key follows, the rendering is that of the
    items with a key with a comma in front of it; when no item has a key, it
    is empty. *)
Theorem StringValue_blank_keys (a : qemucli.KeyValueArg) (h : qemucli.store)
    (it : qemucli.KeyValueArgItem) (rest : list qemucli.KeyValueArgItem) :
  qemucli.elems (qemucli.items a) h = it :: rest ->
  (qemucli.Key it <> "" ->
   fst (qemucli.StringValue a h)
   = spec_join "," (map spec_item (it :: filter nonblank rest)))
  /\ (qemucli.Key it = "" ->
      fst (qemucli.StringValue a h)
      = match filter nonblank rest with
        | [] => ""
        | _ :: _ => "," +:+ spec_join "," (map spec_item (filter nonblank rest))
        end).
Proof.
  intros Helems. unfold qemucli.StringValue. cbn [fst]. rewrite Helems.
  cbn [qemucli.writeItems]. split.
  - intros Hk. destruct (String.eqb (qemucli.Key it) "") eqn:Ek.
    { apply String.eqb_eq in Ek. contradiction. }
    cbn [Nat.eqb negb]. rewrite item_written, writeItems_later_nonblank.
    cbn [map]. destruct (filter nonblank rest); reflexivity.
  - intros Hk. rewrite Hk. cbn [String.eqb].
    rewrite writeItems_later_nonblank.
    destruct (filter nonblank rest); reflexivity.
Qed.

(** X15 on the two sample arguments: [file=disk.img,snapshot] with the blank
    key in the middle, and a comma in front of [snapshot] with the blank key
    first. *)
Lemma StringValue_blank_keys_witness :
  fst (qemucli.StringValue sample_blank_second sample_blank_store)
  = "file=disk.img,snapshot"
  /\ fst (qemucli.StringValue sample_blank_first sample_blank_store) = ",snapshot".
Proof.
  split.
  - apply (proj1 (StringValue_blank_keys sample_blank_second sample_blank_store
                    {| qemucli.Key := "file"; qemucli.Value := "disk.img" |}
                    [ {| qemucli.Key := ""; qemucli.Value := "x" |};
                      {| qemucli.Key := "snapshot"; qemucli.Value := "" |} ]
                    eq_refl)).
    discriminate.
  - apply (proj2 (StringValue_blank_keys sample_blank_first sample_blank_store
                    {| qemucli.Key := ""; qemucli.Value := "x" |}
                    [ {| qemucli.Key := "snapshot"; qemucli.Value := "" |} ]
                    eq_refl)).
    reflexivity.
Defined.

(** ** From the key scan to the table *)

Lemma string_of_list_ascii_app (a b : list ascii) :
  string_of_list_ascii (a ++ b) = string_of_list_ascii a +:+ string_of_list_ascii b.
Proof.
  induction a as [|c a IH]; [reflexivity|].
  change (String c (string_of_list_ascii (a ++ b))
          = String c (string_of_list_ascii a +:+ string_of_list_ascii b)).
  rewrite IH. reflexivity.
Qed.

Lemma Split_one_line (line rest : string) :
  one_line line ->
  strings.Split (line +:+ String "010" rest) "010" = line :: strings.Split rest "010".
Proof.
  unfold one_line. induction line as [|c line IH]; intros Hone; [reflexivity|].
  cbn [strings.Split] in Hone.
  change (String c line +:+ String "010" rest)
    with (String c (line +:+ String "010" rest)).
  cbn [strings.Split].
  destruct (Ascii.eqb c "010").
  - exfalso. pose proof (Split_not_nil line "010") as Hnil.
    destruct (strings.Split line "010"); [contradiction|discriminate Hone].
  - pose proof (Split_not_nil line "010") as Hnil.
    destruct (strings.Split line "010") as [|p ps] eqn:Hsplit; [contradiction|].
    injection Hone as -> ->. rewrite IH by reflexivity. reflexivity.
Qed.

Lemma Split_line_chunks (lines : list string) :
  Forall one_line lines ->
  strings.Split (string_of_list_ascii (concat (map line_chunk lines))) "010"
  = lines ++ [""].
Proof.
  intros Hall. induction Hall as [|line lines Hline Hall IH]; [reflexivity|].
  cbn [map concat]. unfold line_chunk at 1.
  rewrite <- app_assoc, string_of_list_ascii_app, string_of_list_ascii_of_string.
  change (string_of_list_ascii (["010"%char] ++ concat (map line_chunk lines)))
    with (String "010" (string_of_list_ascii (concat (map line_chunk lines)))).
  rewrite (Split_one_line _ _ Hline), IH. reflexivity.
Qed.

(** X16.  When the console delivers every key-scan line as one chunk, the
    line and its newline, the lines that [ParseSSHKeyScan] sees in what
    [scanSSHIdentity] returns are exactly the key-scan lines, in arrival
    order, and one empty line: whatever else the console printed before the
    sentinel is no line of the table's input. *)
Theorem scanned_lines (vi : Instance) (chunks : list (list ascii))
    (status : list ascii) (later : list selected) (lines : list string) :
  writeSerial vi (list_ascii_of_string keyscanCmd) = None ->
  serial vi = map SerialData chunks
              ++ SerialData (statusPrefix ++ "0"%char :: status) :: later ->
  Forall (fun chunk => ~ sentinel chunk) chunks ->
  filter delimited chunks = map line_chunk lines ->
  Forall one_line lines ->
  exists out,
    scanSSHIdentity vi = Returns out /\
    strings.Split (string_of_list_ascii out) "010" = lines ++ [""].
Proof.
  intros Hwrite Hserial Hno Hlines Hone.
  exists (concat (filter delimited chunks)). split.
  - unfold scanSSHIdentity. rewrite Hwrite, Hserial.
    apply (scanSSHIdentity_loop_success chunks status later [] Hno).
  - rewrite Hlines. apply Split_line_chunks. exact Hone.
Qed.

(** X16 on a console that echoes the command, prints two key-scan lines and
    a prompt, and then the status [0]. *)
Lemma scanned_lines_witness :
  exists out,
    scanSSHIdentity
      (sample_instance_with
         (map SerialData sample_scan_chunks
          ++ [SerialData (list_ascii_of_string "SERIAL STATUS: 0")]))
    = Returns out /\
    strings.Split (string_of_list_ascii out) "010" = sample_scan_lines ++ [""].
Proof.
  apply (scanned_lines
           (sample_instance_with
              (map SerialData sample_scan_chunks
               ++ [SerialData (list_ascii_of_string "SERIAL STATUS: 0")]))
           sample_scan_chunks [] [] sample_scan_lines).
  - reflexivity.
  - reflexivity.
  - repeat constructor; unfold sentinel; vm_compute; discriminate.
  - vm_compute. reflexivity.
  - repeat constructor.
Defined.

(** X17.  Two neighbouring records of different key types can change
    places: the parse gives the same result, and so the same verdicts. *)
Theorem records_of_different_types_commute (knownHosts1 knownHosts2 : list ascii)
    (before after : list string) (line1 line2 host1 host2 type1 type2 key1 key2 : string) :
  strings.Split (string_of_list_ascii knownHosts1) "010"
  = before ++ line1 :: line2 :: after ->
  strings.Split (string_of_list_ascii knownHosts2) "010"
  = before ++ line2 :: line1 :: after ->
  strings.Split line1 " " = [host1; type1; key1] ->
  strings.Split line2 " " = [host2; type2; key2] ->
  snd (base64.DecodeString key1) = None ->
  snd (base64.DecodeString key2) = None ->
  type1 <> type2 ->
  ParseSSHKeyScan knownHosts1 = ParseSSHKeyScan knownHosts2.
Proof.
  intros Hl1 Hl2 Hs1 Hs2 Hd1 Hd2 Hne. unfold ParseSSHKeyScan.
  rewrite Hl1, Hl2, !scanLines_app.
  destruct (scanLines before ∅) as [err|m]; [reflexivity|].
  destruct (base64.DecodeString key1) as [b1 e1] eqn:Hk1.
  destruct (base64.DecodeString key2) as [b2 e2] eqn:Hk2.
  simpl in Hd1, Hd2. subst e1 e2.
  rewrite (scanLines_record line1 host1 type1 key1 b1 _ _ Hs1 Hk1).
  rewrite (scanLines_record line2 host2 type2 key2 b2 _ _ Hs2 Hk2).
  rewrite (scanLines_record line2 host2 type2 key2 b2 _ _ Hs2 Hk2).
  rewrite (scanLines_record line1 host1 type1 key1 b1 _ _ Hs1 Hk1).
  rewrite (insert_insert_ne m type1 type2) by exact Hne. reflexivity.
Qed.

(** X17 on an RSA record and an Ed25519 record. *)
Lemma records_of_different_types_commute_witness :
  ParseSSHKeyScan
    (list_ascii_of_string ("h ssh-rsa QUJD" +:+ newline +:+ "h ssh-ed25519 QUJE"))
  = ParseSSHKeyScan
      (list_ascii_of_string ("h ssh-ed25519 QUJE" +:+ newline +:+ "h ssh-rsa QUJD")).
Proof.
  apply (records_of_different_types_commute _ _ [] []
           "h ssh-rsa QUJD" "h ssh-ed25519 QUJE" "h" "h" "ssh-rsa" "ssh-ed25519"
           "QUJD" "QUJE"); try reflexivity.
  discriminate.
Defined.

(** ** Records that end with a carriage return *)








